(** * Shallow embedding of the bolthelper engine of boltdb-explorer

    The Go helper (src/go/internal/..., src/unnamed/part_000, part_001)
    works over a bbolt store.  A store is modelled as its root bucket: an
    ordered association list from raw key bytes to entries, an entry being
    either a value (opaque bytes) or a nested bucket.  Keys and values are
    byte strings, modelled as [string] (a list of 8-bit [ascii]); the
    ordering [String.compare] is raw byte order, the order of bbolt keys.
    Base64 encoding and decoding at the process boundary are mutually
    inverse on the bytes they carry and are modelled as the identity: an
    argument is given as its decoded bytes, and an empty base64 string is
    the empty byte string. *)

From Stdlib Require Import String Ascii List ZArith Bool Lia Sorting.Sorted.
Import ListNotations.

Local Open Scope string_scope.
Local Open Scope Z_scope.
Local Open Scope list_scope.
#[local] Set Warnings "-register-all".

(** ** Data model *)

Inductive node : Type :=
| Val (v : string)
| Bkt (entries : list (string * node)).

(** The entries of a bucket, in cursor (key) order. *)
Definition bucket := list (string * node).

(** Errors: messages built with [fmt.Errorf] and the bbolt errors the
    operations can surface. *)
Inductive err : Type :=
| Errorf (msg : string)
| ErrBucketExists
| ErrBucketNotFound
| ErrBucketNameRequired
| ErrIncompatibleValue
| ErrKeyRequired
| ErrKeyTooLarge
| ErrValueTooLarge.

(** The outcome of running a Go function: a result, an error reported by
    the process (exit status 1, the caller's promise rejects) or a runtime
    panic (index or slice bounds out of range). *)
Inductive outcome (A : Type) : Type :=
| Ok (a : A)
| Fail (e : err)
| Panic.
Arguments Ok {A} a.
Arguments Fail {A} e.
Arguments Panic {A}.

(** ** bbolt primitives *)

Fixpoint lookup_key (k : string) (b : bucket) : option node :=
  match b with
  | [] => None
  | (k', n) :: b' => if String.eqb k' k then Some n else lookup_key k b'
  end.

(** [tx.Bucket(name)] / [b.Bucket(name)]: nil unless [name] names a
    nested bucket. *)
Definition bucket_of (b : bucket) (name : string) : option bucket :=
  match lookup_key name b with
  | Some (Bkt es) => Some es
  | _ => None
  end.

(** [b.Get(key)]: nil for an absent key and for a nested bucket. *)
Definition bucket_get (b : bucket) (key : string) : option string :=
  match lookup_key key b with
  | Some (Val v) => Some v
  | _ => None
  end.

(** A cursor is the list of entries from its current position on;
    [k == nil] is the empty cursor. *)
Definition cursor := list (string * node).

Definition c_first (b : bucket) : cursor := b.

(** [c.Seek(k)] lands on the first key greater than or equal to [k]. *)
Fixpoint c_seek (k : string) (b : bucket) : cursor :=
  match b with
  | [] => []
  | (k', _) :: b' => if String.ltb k' k then c_seek k b' else b
  end.

Definition c_next (c : cursor) : cursor := tl c.

(** [len(v)] and [v == nil] of a cursor entry. *)
Definition value_len (n : node) : Z :=
  match n with Val v => Z.of_nat (String.length v) | Bkt _ => 0 end.

Definition is_bucket (n : node) : bool :=
  match n with Val _ => false | Bkt _ => true end.

(** [strings.Split(s, "/")]: always at least one segment. *)
Fixpoint split_slash (s : string) : list string :=
  match s with
  | EmptyString => [EmptyString]
  | String c rest =>
      if Ascii.eqb c "/"%char then EmptyString :: split_slash rest
      else match split_slash rest with
           | [] => [String c EmptyString]
           | h :: t => String c h :: t
           end
  end.

(** [strings.HasPrefix(s, prefix)]. *)
Definition has_prefix (s prefix : string) : bool := String.prefix prefix s.

(** ** common.BucketAtPath (src/unnamed/part_000, lines 185-194) *)

Fixpoint descend (b : option bucket) (path : list string) : option bucket :=
  match path with
  | [] => b
  | p :: ps =>
      match b with
      | None => None
      | Some bb => descend (bucket_of bb p) ps
      end
  end.

(** [path[0]] panics on an empty path. *)
Definition BucketAtPath (tx : bucket) (path : list string)
  : outcome (option bucket) :=
  match path with
  | [] => Panic
  | p0 :: rest => Ok (descend (bucket_of tx p0) rest)
  end.

(** [var path []string; if bucketPath != "" { path = strings.Split(..) }] *)
Definition path_of (bucketPath : string) : list string :=
  if String.eqb bucketPath "" then [] else split_slash bucketPath.

(** ** listkeys.Run (src/go/internal/listkeys/lsk.go) *)

Record item := mk_item {
  keyBase64 : string;
  valueSize : Z;
  isBucket : bool
}.

Record lsk_result := mk_lsk_result {
  items : list item;
  nextAfterKey : string;
  approxReturned : Z
}.

(** [var res Result]: the zero value, printed when [db.View] returned an
    error (the error itself is discarded). *)
Definition empty_lsk_result : lsk_result := mk_lsk_result [] ""%string 0.

(** Root level, lines 58-72: [tx.ForEach] over the top-level names,
    keeping the buckets with their entry count. *)
Definition all_buckets (tx : bucket) : list (string * Z) :=
  flat_map (fun '(name, n) =>
              match n with
              | Bkt es => [(name, Z.of_nat (List.length es))]
              | Val _ => []
              end) tx.

(** Lines 75-84: the first index whose name is greater than the
    resumption key; [startIdx] stays 0 when there is none. *)
Fixpoint first_greater (kRaw : string) (l : list (string * Z)) (i : nat)
  : nat :=
  match l with
  | [] => 0%nat
  | (name, _) :: l' =>
      if String.ltb kRaw name then i else first_greater kRaw l' (S i)
  end.

Definition start_index (afterKey : string) (l : list (string * Z)) : nat :=
  if String.eqb afterKey "" then 0%nat else first_greater afterKey l 0.

(** Lines 86-99: [for i := startIdx; i < len(allBuckets) && count < limit;
    i++ { if prefix != "" && !HasPrefix { continue }; append; count++ }]. *)
Fixpoint root_loop (prefix : string) (limit : Z) (l : list (string * Z))
    (acc : list item) (count : Z) : list item * Z :=
  match l with
  | [] => (acc, count)
  | (name, size) :: l' =>
      if limit <=? count then (acc, count)
      else if negb (String.eqb prefix "") && negb (has_prefix name prefix)
      then root_loop prefix limit l' acc count
      else root_loop prefix limit l' (acc ++ [mk_item name size true])
             (count + 1)
  end.

Definition lsk_root (tx : bucket) (prefix : string) (limit : Z)
    (afterKey : string) : lsk_result :=
  let all := all_buckets tx in
  let startIdx := start_index afterKey all in
  let '(its, count) := root_loop prefix limit (skipn startIdx all) [] 0 in
  let next : string :=
    if Z.of_nat startIdx + count <? Z.of_nat (List.length all)
    then fst (nth (Z.to_nat (Z.of_nat startIdx + count)) all (EmptyString, 0))
    else ""%string in
  mk_lsk_result its next count.

(** Lines 125-137: the cursor loop; returns the collected items, the count
    and the key at which it stopped ("" when the cursor ran out). *)
Fixpoint cursor_loop (prefix : string) (limit : Z) (c : cursor)
    (acc : list item) (count : Z) : list item * Z * string :=
  match c with
  | [] => (acc, count, ""%string)
  | (k, n) :: c' =>
      if negb (String.eqb prefix "") && negb (has_prefix k prefix)
      then cursor_loop prefix limit c' acc count
      else if limit <=? count then (acc, count, k)
      else cursor_loop prefix limit c'
             (acc ++ [mk_item k (value_len n) (is_bucket n)]) (count + 1)
  end.

(** Lines 112-122: position the cursor.  After a seek, the cursor is
    advanced whenever the seek returned a key. *)
Definition start_cursor (b : bucket) (afterKey : string) : cursor :=
  if String.eqb afterKey "" then c_first b
  else match c_seek afterKey b with
       | [] => []
       | c => c_next c
       end.

Definition lsk_bucket (b : bucket) (prefix : string) (limit : Z)
    (afterKey : string) : lsk_result :=
  let '(its, count, nak) := cursor_loop prefix limit (start_cursor b afterKey) [] 0 in
  let next : string := if (count =? limit) && negb (String.eqb nak "") then nak else ""%string in
  mk_lsk_result its next count.

Definition lsk (tx : bucket) (bucketPath prefix : string) (limit : Z)
    (afterKey : string) : outcome lsk_result :=
  let path := path_of bucketPath in
  match path with
  | [] => Ok (lsk_root tx prefix limit afterKey)
  | _ =>
      match BucketAtPath tx path with
      | Panic => Panic
      | Fail e => Fail e
      | Ok None => Ok empty_lsk_result   (* "bucket not found", discarded *)
      | Ok (Some b) => Ok (lsk_bucket b prefix limit afterKey)
      end
  end.

(** A caller paging through a container: each call resumes from the
    previous page's [nextAfterKey], until none is returned ([fuel] bounds
    the number of calls). *)
Fixpoint chain_pages (fuel : nat) (tx : bucket) (bucketPath : string)
    (limit : Z) (afterKey : string) : list string :=
  match fuel with
  | O => []
  | S f =>
      match lsk tx bucketPath "" limit afterKey with
      | Ok r =>
          map keyBase64 (items r) ++
          (if String.eqb (nextAfterKey r) "" then []
           else chain_pages f tx bucketPath limit (nextAfterKey r))
      | _ => []
      end
  end.

(** ** get.Run (src/go/internal/search/search.go, lines 188-253) *)

Record head_result := mk_head_result {
  mode : string;
  totalSize : Z;
  valueHeadBase64 : string
}.

(** Lines 214-229, the [db.View] closure: the value read, [nil] when the
    key is absent or names a bucket.  Its error is discarded by
    [_ = db.View(..)]: the value then stays [nil]. *)
Definition get_view (tx : bucket) (path : list string) (key : string)
  : outcome (option string) :=
  match path with
  | [] => Ok None   (* "cannot get values at root level, only buckets" *)
  | _ =>
      match BucketAtPath tx path with
      | Panic => Panic
      | Fail e => Fail e
      | Ok None => Ok None   (* "bucket not found" *)
      | Ok (Some b) => Ok (bucket_get b key)
      end
  end.

(** [len(val)], [nil] having length 0. *)
Definition go_len (val : option string) : Z :=
  match val with Some v => Z.of_nat (String.length v) | None => 0 end.

(** [head := val; if len(val) > n { head = val[:n] }]; slicing with a
    negative bound panics. *)
Definition go_head (val : option string) (n : Z) : outcome string :=
  let v := match val with Some v => v | None => EmptyString end in
  if n <? go_len val then
    if n <? 0 then Panic else Ok (substring 0 (Z.to_nat n) v)
  else Ok v.

(** [readHead] = [get --mode head]. *)
Definition readHead (tx : bucket) (bucketPath key : string) (n : Z)
  : outcome head_result :=
  if String.eqb key "" then Fail (Errorf "missing required args")
  else
    match get_view tx (path_of bucketPath) key with
    | Panic => Panic
    | Fail e => Fail e
    | Ok val =>
        match go_head val n with
        | Ok head => Ok (mk_head_result "head" (go_len val) head)
        | Panic => Panic
        | Fail e => Fail e
        end
    end.

(** ** Bucket mutations (bbolt) *)

Definition MaxKeySize : Z := 32768.
Definition MaxValueSize : Z := 2147483646.

(** Insertion keeping the keys sorted; an equal key is replaced. *)
Fixpoint insert_sorted (k : string) (n : node) (b : bucket) : bucket :=
  match b with
  | [] => [(k, n)]
  | (k', n') :: b' =>
      match String.compare k k' with
      | Lt => (k, n) :: b
      | Eq => (k, n) :: b'
      | Gt => (k', n') :: insert_sorted k n b'
      end
  end.

Fixpoint remove_key (k : string) (b : bucket) : bucket :=
  match b with
  | [] => []
  | (k', n') :: b' => if String.eqb k' k then b' else (k', n') :: remove_key k b'
  end.

(** [b.Put(key, value)]. *)
Definition bucket_put (key value : string) (b : bucket) : outcome bucket :=
  if String.eqb key "" then Fail ErrKeyRequired
  else if MaxKeySize <? Z.of_nat (String.length key) then Fail ErrKeyTooLarge
  else if MaxValueSize <? Z.of_nat (String.length value)
  then Fail ErrValueTooLarge
  else match lookup_key key b with
       | Some (Bkt _) => Fail ErrIncompatibleValue
       | _ => Ok (insert_sorted key (Val value) b)
       end.

(** [b.Delete(key)]: an absent key is a no-op. *)
Definition bucket_delete (key : string) (b : bucket) : outcome bucket :=
  match lookup_key key b with
  | Some (Bkt _) => Fail ErrIncompatibleValue
  | Some (Val _) => Ok (remove_key key b)
  | None => Ok b
  end.

(** [b.CreateBucket(name)] and [tx.CreateBucket(name)]. *)
Definition bucket_create (name : string) (b : bucket) : outcome bucket :=
  if String.eqb name "" then Fail ErrBucketNameRequired
  else match lookup_key name b with
       | Some (Bkt _) => Fail ErrBucketExists
       | Some (Val _) => Fail ErrIncompatibleValue
       | None => Ok (insert_sorted name (Bkt []) b)
       end.

(** [b.DeleteBucket(name)] and [tx.DeleteBucket(name)]: the subtree goes
    with the entry. *)
Definition bucket_delete_bucket (name : string) (b : bucket) : outcome bucket :=
  match lookup_key name b with
  | Some (Bkt _) => Ok (remove_key name b)
  | Some (Val _) => Fail ErrIncompatibleValue
  | None => Fail ErrBucketNotFound
  end.

(** Writing through the handle [BucketAtPath] returned: apply a mutation
    to the bucket at [path], rebuilding its ancestors. *)
Fixpoint modify_at (b : bucket) (path : list string)
    (f : bucket -> outcome bucket) : outcome bucket :=
  match path with
  | [] => f b
  | p :: ps =>
      match lookup_key p b with
      | Some (Bkt es) =>
          match modify_at es ps f with
          | Ok es' => Ok (insert_sorted p (Bkt es') b)
          | Fail e => Fail e
          | Panic => Panic
          end
      | _ => Fail (Errorf "bucket not found")
      end
  end.

(** [path[len(path)-1]] and [path[:len(path)-1]]. *)
Definition last_segment (path : list string) : outcome string :=
  match nth_error path (List.length path - 1) with
  | None => Panic
  | Some x => Ok x
  end.

(** ** write.Run (src/unnamed/part_000, lines 56-166)

    Each operation runs in one [db.Update]: it returns the committed root
    bucket, or the error, in which case the transaction is rolled back and
    the store is left as it was. *)

Definition createBucket (tx : bucket) (bucketPath : string) : outcome bucket :=
  if String.eqb bucketPath "" then Fail (Errorf "bucket path required")
  else
    let path := split_slash bucketPath in
    match last_segment path with
    | Panic => Panic
    | Fail e => Fail e
    | Ok bucketName =>
        if Nat.eqb (List.length path) 1 then bucket_create bucketName tx
        else
          let parentPath := removelast path in
          match BucketAtPath tx parentPath with
          | Panic => Panic
          | Fail e => Fail e
          | Ok None => Fail (Errorf "parent bucket not found")
          | Ok (Some _) => modify_at tx parentPath (bucket_create bucketName)
          end
    end.

Definition putKeyValue (tx : bucket) (bucketPath key value : string)
  : outcome bucket :=
  if String.eqb key "" then Fail (Errorf "key required")
  else if String.eqb value "" then Fail (Errorf "value required")
  else if String.eqb bucketPath "" then
    Fail (Errorf "cannot put key-value at root level")
  else
    let path := split_slash bucketPath in
    match BucketAtPath tx path with
    | Panic => Panic
    | Fail e => Fail e
    | Ok None => Fail (Errorf "bucket not found")
    | Ok (Some _) => modify_at tx path (bucket_put key value)
    end.

Definition deleteKey (tx : bucket) (bucketPath key : string) : outcome bucket :=
  if String.eqb key "" then Fail (Errorf "key required")
  else if String.eqb bucketPath "" then
    Fail (Errorf "cannot delete key at root level")
  else
    let path := split_slash bucketPath in
    match BucketAtPath tx path with
    | Panic => Panic
    | Fail e => Fail e
    | Ok None => Fail (Errorf "bucket not found")
    | Ok (Some _) => modify_at tx path (bucket_delete key)
    end.

Definition deleteBucket (tx : bucket) (bucketPath : string) : outcome bucket :=
  if String.eqb bucketPath "" then Fail (Errorf "bucket path required")
  else
    let path := split_slash bucketPath in
    match last_segment path with
    | Panic => Panic
    | Fail e => Fail e
    | Ok bucketName =>
        if Nat.eqb (List.length path) 1 then bucket_delete_bucket bucketName tx
        else
          let parentPath := removelast path in
          match BucketAtPath tx parentPath with
          | Panic => Panic
          | Fail e => Fail e
          | Ok None => Fail (Errorf "parent bucket not found")
          | Ok (Some _) =>
              modify_at tx parentPath (bucket_delete_bucket bucketName)
          end
    end.

(** The store after a write: the committed root, or the old one when the
    transaction failed. *)
Definition after (tx : bucket) (r : outcome bucket) : bucket :=
  match r with Ok tx' => tx' | _ => tx end.

Definition is_ok {A} (r : outcome A) : bool :=
  match r with Ok _ => true | _ => false end.

(** ** export.Run (src/unnamed/part_001) *)

Record row := mk_row {
  rowPath : list string;
  rowKey : string;
  rowValue : string
}.

(** Base64 of [v], nil (a nested bucket) encoding to "". *)
Definition row_value (n : node) : string :=
  match n with Val v => v | Bkt _ => EmptyString end.

(** Lines 63-71: one record per cursor entry matching the prefix, encoded
    and written before the cursor moves on. *)
Fixpoint export_loop (path : list string) (prefix : string) (c : cursor)
  : list row :=
  match c with
  | [] => []
  | (k, n) :: c' =>
      if negb (String.eqb prefix "") && negb (has_prefix k prefix)
      then export_loop path prefix c'
      else mk_row path k (row_value n) :: export_loop path prefix c'
  end.

(** Lines 52-73, the [db.View] closure: the rows written to the sink; the
    "bucket not found" error is discarded. *)
Definition export_view (tx : bucket) (path : list string) (prefix : string)
  : outcome (list row) :=
  match path with
  | [] => Ok (export_loop path prefix (c_first tx))   (* tx.Cursor().Bucket() *)
  | _ =>
      match BucketAtPath tx path with
      | Panic => Panic
      | Fail e => Fail e
      | Ok None => Ok []
      | Ok (Some b) => Ok (export_loop path prefix (c_first b))
      end
  end.

Definition export (tx : bucket) (bucketPath out prefix : string)
  : outcome (list row) :=
  if String.eqb out "" then Fail (Errorf "missing required args")
  else export_view tx (path_of bucketPath) prefix.

(** ** common.CmdListBuckets (src/unnamed/part_000, lines 217-240) *)

Definition CmdListBuckets (tx : bucket) (path : list string)
  : outcome (option (list string)) :=
  let names (b : bucket) :=
    flat_map (fun '(k, n) => if is_bucket n then [k] else []) b in
  match path with
  | [] => Ok (Some (names tx))
  | _ =>
      match BucketAtPath tx path with
      | Panic => Panic
      | Fail e => Fail e
      | Ok None => Ok None   (* {"error": "bucket not found"} *)
      | Ok (Some b) => Ok (Some (names b))
      end
  end.

(** ** search (src/go/internal/search/search.go, lines 28-159) *)

(** [strings.Contains(s, sub)]. *)
Fixpoint contains (s sub : string) : bool :=
  String.prefix sub s ||
  match s with
  | EmptyString => false
  | String _ s' => contains s' sub
  end.

Record search_item := mk_search_item {
  sPath : list string;
  sKeyBase64 : string;
  sValueSize : Z;
  sIsBucket : bool;
  sType : string
}.

Record search_result := mk_search_result {
  sItems : list search_item;
  total : Z;
  limited : bool
}.

(** The state shared by reference across the recursion: [*items] and
    [*count].  [probes] is instrumentation only: the value of [*count] at
    each [strings.Contains] test, i.e. at each unit of work performed. *)
Record search_state := mk_search_state {
  found : list search_item;
  count : Z;
  probes : list Z
}.

Section Search.

(** Go's [strings.ToLower] (Unicode case mapping). *)
Variable to_lower : string -> string.
Variable query : string.
Variable caseSensitive : bool.
Variable limit : Z.

Definition search_key (k : string) : string :=
  if caseSensitive then k else to_lower k.

(** Test one name and append [it] when it matches. *)
Definition probe (k : string) (it : search_item) (st : search_state)
  : search_state :=
  let st0 := mk_search_state (found st) (count st) (probes st ++ [count st]) in
  if contains (search_key k) query
  then mk_search_state (found st0 ++ [it]) (count st0 + 1) (probes st0)
  else st0.

Definition bucket_item (path : list string) (k : string) (n : node)
  : search_item :=
  mk_search_item path k (value_len n) (is_bucket n)
    (if is_bucket n then "bucket" else "key").

(** [searchInBucket] (lines 119-159): [bucket.ForEach] over the entries of
    a bucket node; each callback first checks the count. *)
Fixpoint searchInBucket (n : node) (path : list string) (st : search_state)
  {struct n} : search_state :=
  match n with
  | Val _ => st
  | Bkt es =>
      (fix each (es : list (string * node)) (st : search_state) :=
         match es with
         | [] => st
         | (k, c) :: es' =>
             let st1 :=
               if limit <=? count st then st
               else
                 let st' := probe k (bucket_item path k c) st in
                 if is_bucket c && (count st' <? limit)
                 then searchInBucket c (path ++ [k]) st'
                 else st'
             in each es' st1
         end) es st
  end.

(** [tx.ForEach] at root (lines 77-108). *)
Fixpoint search_root (tx : bucket) (st : search_state) : search_state :=
  match tx with
  | [] => st
  | (name, b) :: tx' =>
      let st1 :=
        if limit <=? count st then st
        else
          let st' := probe name (mk_search_item [] name 0 true "bucket") st in
          if (count st' <? limit) && is_bucket b
          then searchInBucket b [name] st'
          else st'
      in search_root tx' st1
  end.

(** [searchRecursive] (lines 70-117). *)
Definition searchRecursive (tx : bucket) (path : list string)
    (st : search_state) : outcome search_state :=
  if limit <=? count st then Ok st
  else
    match path with
    | [] => Ok (search_root tx st)
    | _ =>
        match BucketAtPath tx path with
        | Panic => Panic
        | Fail e => Fail e
        | Ok None => Ok st
        | Ok (Some b) => Ok (searchInBucket (Bkt b) path st)
        end
    end.

End Search.

Definition empty_search_state : search_state := mk_search_state [] 0 [].

(** [Run] (lines 28-68). *)
Definition search_run (to_lower : string -> string) (tx : bucket)
    (query : string) (limit : Z) (caseSensitive : bool)
  : outcome (search_result * search_state) :=
  if String.eqb query "" then Fail (Errorf "missing required args: db and query")
  else
    let searchQuery := if caseSensitive then query else to_lower query in
    match searchRecursive to_lower searchQuery caseSensitive limit tx []
            empty_search_state with
    | Ok st =>
        let n := Z.of_nat (List.length (found st)) in
        Ok (mk_search_result (found st) n (limit <=? n), st)
    | Panic => Panic
    | Fail e => Fail e
    end.

Definition search (to_lower : string -> string) (tx : bucket) (query : string)
    (limit : Z) (caseSensitive : bool) : outcome search_result :=
  match search_run to_lower tx query limit caseSensitive with
  | Ok (r, _) => Ok r
  | Panic => Panic
  | Fail e => Fail e
  end.

Definition is_panic {A} (r : outcome A) : bool :=
  match r with Panic => true | _ => false end.

(** Induction over nodes, through the nested entry lists. *)
Definition node_ind2 (P : node -> Prop)
    (HV : forall v, P (Val v))
    (HB : forall es, Forall (fun kc => P (snd kc)) es -> P (Bkt es))
  : forall n, P n :=
  fix F (n : node) : P n :=
    match n with
    | Val v => HV v
    | Bkt es =>
        HB es ((fix G (l : list (string * node))
                  : Forall (fun kc => P (snd kc)) l :=
                  match l with
                  | [] => Forall_nil _
                  | (k, c) :: l' => @Forall_cons _ (fun kc => P (snd kc)) (k, c) l' (F c) (G l')
                  end) es)
    end.

(** Go's [strings.ToLower] on ASCII input: A-Z to a-z. *)
Definition ascii_lower (c : ascii) : ascii :=
  let n := nat_of_ascii c in
  if (Nat.leb 65 n && Nat.leb n 90)%bool then ascii_of_nat (n + 32) else c.

Fixpoint to_lower_ascii (s : string) : string :=
  match s with
  | EmptyString => EmptyString
  | String c s' => String (ascii_lower c) (to_lower_ascii s')
  end.

(** The search bound: [*count] is the number of collected items, never
    exceeds [limit], and every test was made while it was below [limit]. *)
Definition search_inv (limit : Z) (st : search_state) : Prop :=
  count st = Z.of_nat (List.length (found st)) /\ count st <= limit /\
  Forall (fun c => c < limit) (probes st).

(** ** Store well-formedness: bbolt keeps the keys of every bucket unique
    and in increasing byte order. *)

Definition key_lt (x y : string * node) : Prop :=
  String.compare (fst x) (fst y) = Lt.

Definition keys_sorted (b : bucket) : Prop := StronglySorted key_lt b.

Fixpoint wf_node (n : node) : Prop :=
  match n with
  | Val _ => True
  | Bkt es =>
      keys_sorted es /\
      (fix wf_entries (es : list (string * node)) : Prop :=
         match es with
         | [] => True
         | (_, c) :: es' => wf_node c /\ wf_entries es'
         end) es
  end.

Definition wf_store (tx : bucket) : Prop := wf_node (Bkt tx).

(** ** Vocabulary for the properties of lsk and search *)

(** The prefix filter of the lsk loops: no prefix, or [HasPrefix]. *)
Definition prefix_ok (prefix k : string) : bool :=
  String.eqb prefix "" || has_prefix k prefix.

(** The item the cursor loop appends for an entry. *)
Definition entry_item (e : string * node) : item :=
  mk_item (fst e) (value_len (snd e)) (is_bucket (snd e)).

(** The item the root loop appends for a top-level bucket. *)
Definition root_item (e : string * Z) : item := mk_item (fst e) (snd e) true.

(** The key of the [i]-th entry, "" past the end. *)
Definition key_at {A} (l : list (string * A)) (i : nat) : string :=
  match nth_error l i with Some e => fst e | None => ""%string end.

Section SearchMatches.

Variable to_lower : string -> string.
Variable query : string.
Variable caseSensitive : bool.

(** Every match below a node, in the order a depth-first, pre-order walk
    of [ForEach] meets them, with no limit. *)
Fixpoint node_matches (n : node) (path : list string) {struct n}
  : list search_item :=
  match n with
  | Val _ => []
  | Bkt es =>
      (fix each (es : list (string * node)) : list search_item :=
         match es with
         | [] => []
         | (k, c) :: es' =>
             (if contains (search_key to_lower caseSensitive k) query
              then [bucket_item path k c] else []) ++
             (if is_bucket c then node_matches c (path ++ [k]) else []) ++
             each es'
         end) es
  end.

Definition root_matches (tx : bucket) : list search_item :=
  flat_map (fun '(name, b) =>
              (if contains (search_key to_lower caseSensitive name) query
               then [mk_search_item [] name 0 true "bucket"] else []) ++
              (if is_bucket b then node_matches b [name] else [])) tx.

End SearchMatches.

(** A walk [f] over the search state appends the longest prefix of [L]
    the remaining budget [limit - count] allows, and counts it. *)
Definition takes (limit : Z) (f : search_state -> search_state)
    (L : list search_item) : Prop :=
  forall st,
    found (f st) = found st ++ firstn (Z.to_nat (limit - count st)) L /\
    count (f st) =
      count st + Z.of_nat (List.length (firstn (Z.to_nat (limit - count st)) L)).

(** ** Concrete stores used below *)

(** One container "a" holding three values. *)
Definition pager_store : bucket :=
  [("a", Bkt [("x", Val "1"); ("y", Val "2"); ("z", Val "3")])].

(** One container "a" holding "x" and "z" ("y" deleted since a page). *)
Definition gap_store : bucket :=
  [("a", Bkt [("x", Val "1"); ("z", Val "3")])].

(** Two empty top-level containers. *)
Definition two_roots : bucket := [("a", Bkt []); ("b", Bkt [])].

(** Container "a" holding a nested container "b" and a value "d"; "b"
    holds the value "c". *)
Definition nested_store : bucket :=
  [("a", Bkt [("b", Bkt [("c", Val "x")]); ("d", Val "v")])].

(** ** Helper lemmas *)

Lemma compare_refl_eq (k : string) : String.compare k k = Eq.
Proof. induction k as [|c k IH]; simpl; [reflexivity|]. unfold Ascii.compare; rewrite N.compare_refl; exact IH. Qed.

Lemma lookup_insert_same (k : string) (n : node) (b : bucket) :
  lookup_key k (insert_sorted k n b) = Some n.
Proof.
  induction b as [|[k' n'] b IH]; simpl.
  - rewrite String.eqb_refl; reflexivity.
  - destruct (String.compare k k') eqn:Hc; simpl.
    + rewrite String.eqb_refl; reflexivity.
    + rewrite String.eqb_refl; reflexivity.
    + destruct (String.eqb_spec k' k) as [->|_]; [|exact IH].
      rewrite compare_refl_eq in Hc; discriminate.
Qed.

Lemma descend_None (ps : list string) : descend None ps = None.
Proof. destruct ps; reflexivity. Qed.

Lemma BucketAtPath_descend (tx : bucket) (path : list string) :
  path <> [] -> BucketAtPath tx path = Ok (descend (Some tx) path).
Proof. destruct path; [congruence|reflexivity]. Qed.

Lemma split_slash_nonempty (s : string) : split_slash s <> [].
Proof.
  destruct s as [|c s]; simpl; [discriminate|].
  destruct (Ascii.eqb c "/"%char); [discriminate|].
  destruct (split_slash s); discriminate.
Qed.

Lemma path_of_nonempty (s : string) :
  s <> ""%string -> path_of s = split_slash s.
Proof.
  intro H; unfold path_of.
  destruct (String.eqb_spec s "") as [E|_]; [contradiction|reflexivity].
Qed.

(** Writing through a resolved handle succeeds when the mutation does, and
    the handle then sees the mutated bucket. *)
Lemma modify_at_ok (path : list string) :
  forall (b t t' : bucket) (f : bucket -> outcome bucket),
  descend (Some b) path = Some t -> f t = Ok t' ->
  exists b', modify_at b path f = Ok b' /\ descend (Some b') path = Some t'.
Proof.
  induction path as [|p ps IH]; intros b t t' f Hd Hf; simpl in *.
  - injection Hd as <-. exists t'. split; [exact Hf|reflexivity].
  - unfold bucket_of in Hd.
    destruct (lookup_key p b) as [[v|es]|] eqn:Hl;
      try (rewrite descend_None in Hd; discriminate).
    destruct (IH es t t' f Hd Hf) as [es' [Hm Hd']].
    rewrite Hm. eexists; split; [reflexivity|].
    unfold bucket_of; rewrite lookup_insert_same; exact Hd'.
Qed.

Lemma modify_at_fail (path : list string) :
  forall (b t : bucket) (f : bucket -> outcome bucket) e,
  descend (Some b) path = Some t -> f t = Fail e ->
  modify_at b path f = Fail e.
Proof.
  induction path as [|p ps IH]; intros b t f e Hd Hf; simpl in *.
  - injection Hd as <-. exact Hf.
  - unfold bucket_of in Hd.
    destruct (lookup_key p b) as [[v|es]|] eqn:Hl;
      try (rewrite descend_None in Hd; discriminate).
    rewrite (IH es t f e Hd Hf); reflexivity.
Qed.

(** ** Listing *)

(** C1 (code bug).  Paging "a" with limit 1: the first page returns "x"
    and hands out the first excluded key "y" as [nextAfterKey]; the next
    call seeks to "y", finds it and steps past it, so the chained pages
    yield x, z while one full scan yields x, y, z. *)
Theorem lsk_chain_drops_resume_key :
  lsk pager_store "a" "" 1 "" =
    Ok (mk_lsk_result [mk_item "x" 1 false] "y" 1) /\
  chain_pages 10 pager_store "a" 1 "" = ["x"; "z"]%string /\
  chain_pages 10 pager_store "a" 3 "" = ["x"; "y"; "z"]%string.
Proof. vm_compute. repeat split. Qed.

(** C2 (code bug).  Resuming "a" after the absent key "y": the seek lands
    on "z", and the cursor is advanced anyway, so "z" is skipped and the
    page is empty. *)
Theorem lsk_resume_absent_key_skips :
  c_seek "y" [("x", Val "1"); ("z", Val "3")] = [("z", Val "3")] /\
  lsk gap_store "a" "" 10 "y" = Ok (mk_lsk_result [] "" 0).
Proof. vm_compute. split; reflexivity. Qed.

(** C4 (code bug).  At root, a resumption key greater than every
    container name leaves [startIdx] at 0: the listing restarts from the
    first name. *)
Theorem lsk_root_after_last_restarts :
  lsk two_roots "" "" 10 "c" =
    Ok (mk_lsk_result [mk_item "a" 0 true; mk_item "b" 0 true] "" 2).
Proof. vm_compute. reflexivity. Qed.

(** ** Root-level value access *)

(** C3 (code bug).  [put] with the empty path always fails with an error
    that is reported; [readHead] with the empty path, a non-empty key and
    a bound [n >= 0] is not rejected: get.Run returns its root-level error
    inside the [db.View] callback, the caller discards it ([_ = db.View]),
    and the success payload is produced with totalSize 0 and empty head
    bytes. *)
Theorem root_put_fails_read_empty :
  forall (tx : bucket) (key value : string) (n : Z),
    (exists e, putKeyValue tx "" key value = Fail e) /\
    (key <> ""%string -> 0 <= n ->
     readHead tx "" key n = Ok (mk_head_result "head" 0 "")).
Proof.
  intros tx key value n; split.
  - unfold putKeyValue.
    destruct (String.eqb key ""); [eexists; reflexivity|].
    destruct (String.eqb value ""); eexists; reflexivity.
  - intros Hk Hn. unfold readHead.
    destruct (String.eqb_spec key "") as [E|_]; [contradiction|].
    unfold get_view, go_head; simpl.
    destruct (Z.ltb_spec n 0); [lia|reflexivity].
Qed.

Lemma root_put_fails_read_empty_witness :
  ("k" <> ""%string /\ 0 <= 5) /\
  (exists e, putKeyValue [("m", Bkt [])] "" "k" "v" = Fail e) /\
  readHead [("m", Bkt [])] "" "k" 5 = Ok (mk_head_result "head" 0 "").
Proof.
  assert (Hk : "k" <> ""%string) by discriminate.
  split; [split; [exact Hk|lia]|].
  destruct (root_put_fails_read_empty [("m", Bkt [])] "k" "v" 5) as [Hp Hr].
  split; [exact Hp|]. apply Hr; [exact Hk|lia].
Defined.

(** ** Put then read *)

Lemma substring_full (s : string) : substring 0 (String.length s) s = s.
Proof. induction s as [|c s IH]; simpl; [reflexivity|now rewrite IH]. Qed.

Lemma substring_length (s : string) (m : nat) :
  (m <= String.length s)%nat -> String.length (substring 0 m s) = m.
Proof.
  revert m; induction s as [|c s IH]; intros [|m] Hm; simpl in *;
    try reflexivity; try lia.
  rewrite IH; [reflexivity|lia].
Qed.

Lemma bucket_put_ok (key value : string) (b b1 : bucket) :
  bucket_put key value b = Ok b1 -> b1 = insert_sorted key (Val value) b.
Proof.
  unfold bucket_put.
  destruct (String.eqb key ""); [discriminate|].
  destruct (MaxKeySize <? _); [discriminate|].
  destruct (MaxValueSize <? _); [discriminate|].
  destruct (lookup_key key b) as [[v|es]|]; try discriminate;
    intro H; injection H as <-; reflexivity.
Qed.

(** A successful [put] went through a resolved, non-root path, and the
    bucket at that path now holds the value. *)
Lemma putKeyValue_ok (tx tx' : bucket) (bucketPath key value : string) :
  putKeyValue tx bucketPath key value = Ok tx' ->
  bucketPath <> "" /\ key <> "" /\ value <> "" /\
  exists b, descend (Some tx) (split_slash bucketPath) = Some b /\
            descend (Some tx') (split_slash bucketPath) =
              Some (insert_sorted key (Val value) b).
Proof.
  unfold putKeyValue.
  destruct (String.eqb_spec key "") as [_|Hk]; [discriminate|].
  destruct (String.eqb_spec value "") as [_|Hv]; [discriminate|].
  destruct (String.eqb_spec bucketPath "") as [_|Hp]; [discriminate|].
  rewrite (BucketAtPath_descend _ _ (split_slash_nonempty bucketPath)).
  destruct (descend (Some tx) (split_slash bucketPath)) as [b|] eqn:Hd;
    [|discriminate].
  intro H. repeat split; try assumption. exists b; split; [reflexivity|].
  destruct (bucket_put key value b) as [b1| e |] eqn:Hput.
  - destruct (modify_at_ok _ _ _ _ _ Hd Hput) as [b' [Hm Hd']].
    rewrite Hm in H; injection H as ->.
    rewrite Hd'; f_equal; exact (bucket_put_ok _ _ _ _ Hput).
  - rewrite (modify_at_fail _ _ _ _ _ Hd Hput) in H; discriminate.
  - exfalso; revert Hput; unfold bucket_put.
    destruct (String.eqb key ""); [discriminate|].
    destruct (MaxKeySize <? _); [discriminate|].
    destruct (MaxValueSize <? _); [discriminate|].
    destruct (lookup_key key b) as [[v|es]|]; discriminate.
Qed.

(** C5.  After [put(p, k, v)] succeeds, [readHead(p, k, n)] for a bound
    [n >= 0] reports the full length of [v] and its first [min(n, len v)]
    bytes; with [n = len v] the head is [v], and with [n < len v] the head
    has exactly [n] bytes. *)
Theorem put_then_readHead :
  forall (tx tx' : bucket) (bucketPath key value : string),
    putKeyValue tx bucketPath key value = Ok tx' ->
    (forall n, 0 <= n ->
       readHead tx' bucketPath key n =
         Ok (mk_head_result "head" (Z.of_nat (String.length value))
               (substring 0 (Z.to_nat (Z.min n (Z.of_nat (String.length value))))
                  value))) /\
    readHead tx' bucketPath key (Z.of_nat (String.length value)) =
      Ok (mk_head_result "head" (Z.of_nat (String.length value)) value) /\
    (forall n, 0 <= n < Z.of_nat (String.length value) ->
       exists r, readHead tx' bucketPath key n = Ok r /\
                 Z.of_nat (String.length (valueHeadBase64 r)) = n /\
                 totalSize r = Z.of_nat (String.length value)).
Proof.
  intros tx tx' bucketPath key value H.
  destruct (putKeyValue_ok _ _ _ _ _ H) as [Hp [Hk [Hv [b [_ Hd']]]]].
  assert (Hread : forall n, readHead tx' bucketPath key n =
     match go_head (Some value) n with
     | Ok head => Ok (mk_head_result "head" (Z.of_nat (String.length value)) head)
     | Panic => Panic
     | Fail e => Fail e
     end).
  { intro n. unfold readHead.
    destruct (String.eqb_spec key "") as [E|_]; [contradiction|].
    rewrite (path_of_nonempty _ Hp). unfold get_view.
    destruct (split_slash bucketPath) eqn:Hs;
      [exfalso; exact (split_slash_nonempty _ Hs)|].
    cbn [BucketAtPath descend] in Hd' |- *.
    rewrite Hd'. unfold bucket_get. rewrite lookup_insert_same. reflexivity. }
  assert (Hmain : forall n, 0 <= n ->
     readHead tx' bucketPath key n =
       Ok (mk_head_result "head" (Z.of_nat (String.length value))
             (substring 0 (Z.to_nat (Z.min n (Z.of_nat (String.length value))))
                value))).
  { intros n Hn. rewrite Hread. unfold go_head, go_len.
    destruct (Z.ltb_spec n (Z.of_nat (String.length value))) as [Hlt|Hge].
    - destruct (Z.ltb_spec n 0); [lia|].
      rewrite Z.min_l by lia. reflexivity.
    - rewrite Z.min_r by lia. rewrite Nat2Z.id, substring_full. reflexivity. }
  split; [exact Hmain|split].
  - rewrite Hmain by lia. rewrite Z.min_id, Nat2Z.id, substring_full.
    reflexivity.
  - intros n Hn. eexists; split; [apply Hmain; lia|]. simpl. split; [|reflexivity].
    rewrite Z.min_l by lia. rewrite substring_length; lia.
Qed.

Lemma put_then_readHead_witness :
  putKeyValue [("a", Bkt [])] "a" "k" "hello" = Ok [("a", Bkt [("k", Val "hello")])] /\
  readHead [("a", Bkt [("k", Val "hello")])] "a" "k" 2 =
    Ok (mk_head_result "head" 5 "he").
Proof.
  assert (H : putKeyValue [("a", Bkt [])] "a" "k" "hello" =
              Ok [("a", Bkt [("k", Val "hello")])]) by (vm_compute; reflexivity).
  split; [exact H|].
  destruct (put_then_readHead _ _ _ _ _ H) as [Hm _].
  rewrite (Hm 2 ltac:(lia)). reflexivity.
Defined.

(** ** Creating containers *)

Lemma nth_error_last_index (l : list string) (d : string) :
  l <> [] -> nth_error l (List.length l - 1) = Some (last l d).
Proof.
  induction l as [|x l IH]; intro H; [congruence|].
  destruct l as [|y l]; [reflexivity|].
  simpl in IH |- *. rewrite Nat.sub_0_r in IH. apply IH; discriminate.
Qed.

Lemma removelast_nonempty (l : list string) :
  (2 <= List.length l)%nat -> removelast l <> [].
Proof.
  destruct l as [|x [|y l]]; simpl; intro H; try lia.
  destruct l; discriminate.
Qed.

(** The nested branch of [createBucket]: the parent is resolved, then the
    name is created in it. *)
Lemma createBucket_nested (tx : bucket) (bucketPath : string) :
  (2 <= List.length (split_slash bucketPath))%nat ->
  createBucket tx bucketPath =
    match descend (Some tx) (removelast (split_slash bucketPath)) with
    | None => Fail (Errorf "parent bucket not found")
    | Some _ =>
        modify_at tx (removelast (split_slash bucketPath))
          (bucket_create (last (split_slash bucketPath) ""))
    end.
Proof.
  intro Hlen. unfold createBucket.
  destruct (String.eqb_spec bucketPath "") as [->|_]; [simpl in Hlen; lia|].
  unfold last_segment.
  rewrite (nth_error_last_index _ "") by (intro E; rewrite E in Hlen; simpl in Hlen; lia).
  destruct (Nat.eqb_spec (List.length (split_slash bucketPath)) 1); [lia|].
  rewrite (BucketAtPath_descend _ _ (removelast_nonempty _ Hlen)).
  destruct (descend (Some tx) (removelast (split_slash bucketPath))); reflexivity.
Qed.

(** C6.  [createContainer("a/b")] fails with the parent-not-found error
    while "a" does not exist; once "a" is created it succeeds; a second
    [createContainer("a/b")] fails with bbolt's [ErrBucketExists].  In
    general, for a path of depth at least 2, creation fails when the parent
    path does not resolve, and fails with [ErrBucketExists] when the parent
    already holds a container of that (non-empty) name. *)
Theorem createBucket_parent_and_conflict :
  (forall tx : bucket, lookup_key "a" tx = None ->
     createBucket tx "a/b" = Fail (Errorf "parent bucket not found") /\
     exists tx1 tx2, createBucket tx "a" = Ok tx1 /\
                     createBucket tx1 "a/b" = Ok tx2 /\
                     createBucket tx2 "a/b" = Fail ErrBucketExists) /\
  (forall (tx : bucket) (bucketPath : string),
     (2 <= List.length (split_slash bucketPath))%nat ->
     (descend (Some tx) (removelast (split_slash bucketPath)) = None ->
        createBucket tx bucketPath = Fail (Errorf "parent bucket not found")) /\
     (forall pb es,
        last (split_slash bucketPath) "" <> "" ->
        descend (Some tx) (removelast (split_slash bucketPath)) = Some pb ->
        lookup_key (last (split_slash bucketPath) "") pb = Some (Bkt es) ->
        createBucket tx bucketPath = Fail ErrBucketExists)).
Proof.
  assert (General : forall (tx : bucket) (bucketPath : string),
     (2 <= List.length (split_slash bucketPath))%nat ->
     (descend (Some tx) (removelast (split_slash bucketPath)) = None ->
        createBucket tx bucketPath = Fail (Errorf "parent bucket not found")) /\
     (forall pb es,
        last (split_slash bucketPath) "" <> "" ->
        descend (Some tx) (removelast (split_slash bucketPath)) = Some pb ->
        lookup_key (last (split_slash bucketPath) "") pb = Some (Bkt es) ->
        createBucket tx bucketPath = Fail ErrBucketExists)).
  { intros tx bucketPath Hlen.
    rewrite (createBucket_nested _ _ Hlen). split.
    - intros ->; reflexivity.
    - intros pb es Hn Hd Hl. rewrite Hd.
      apply (modify_at_fail _ _ _ _ _ Hd).
      unfold bucket_create.
      destruct (String.eqb_spec (last (split_slash bucketPath) "") "");
        [contradiction|].
      rewrite Hl; reflexivity. }
  split; [|exact General].
  intros tx Ha.
  assert (Hlen : (2 <= List.length (split_slash "a/b"))%nat)
    by (vm_compute; lia).
  split.
  - apply (General tx "a/b" Hlen). simpl. unfold bucket_of. rewrite Ha.
    reflexivity.
  - set (tx1 := insert_sorted "a" (Bkt []) tx).
    set (tx2 := insert_sorted "a" (Bkt [("b", Bkt [])]) tx1).
    exists tx1, tx2.
    assert (H1 : lookup_key "a" tx1 = Some (Bkt [])) by apply lookup_insert_same.
    assert (H2 : lookup_key "a" tx2 = Some (Bkt [("b", Bkt [])]))
      by apply lookup_insert_same.
    split; [|split].
    + unfold createBucket; simpl. unfold bucket_create; simpl.
      rewrite Ha; reflexivity.
    + rewrite (createBucket_nested _ _ Hlen). simpl.
      unfold bucket_of; rewrite H1. reflexivity.
    + apply (proj2 (General tx2 "a/b" Hlen) [("b", Bkt [])] []).
      * discriminate.
      * simpl. unfold bucket_of. rewrite H2. reflexivity.
      * reflexivity.
Qed.

Lemma createBucket_parent_and_conflict_witness :
  lookup_key "a" [("z", Bkt [])] = None /\
  createBucket [("z", Bkt [])] "a/b" = Fail (Errorf "parent bucket not found") /\
  createBucket [("a", Bkt [("b", Bkt [])])] "a/b" = Fail ErrBucketExists.
Proof.
  split; [reflexivity|]. split.
  - exact (proj1 (proj1 createBucket_parent_and_conflict [("z", Bkt [])] eq_refl)).
  - apply (proj2 (proj2 createBucket_parent_and_conflict
                    [("a", Bkt [("b", Bkt [])])] "a/b" ltac:(vm_compute; lia))
                 [("b", Bkt [])] []);
      [discriminate|reflexivity|reflexivity].
Defined.

(** ** Deleting a key *)

Lemma lsk_resolved (tx b : bucket) (bucketPath prefix : string) (limit : Z)
    (afterKey : string) :
  bucketPath <> "" -> descend (Some tx) (split_slash bucketPath) = Some b ->
  lsk tx bucketPath prefix limit afterKey = Ok (lsk_bucket b prefix limit afterKey).
Proof.
  intros Hp Hd. unfold lsk. rewrite (path_of_nonempty _ Hp).
  destruct (split_slash bucketPath) as [|s l] eqn:Hs;
    [exfalso; exact (split_slash_nonempty _ Hs)|].
  cbn [BucketAtPath descend] in Hd |- *. rewrite Hd. reflexivity.
Qed.

Lemma cursor_loop_keys (prefix : string) (limit : Z) (c : cursor) :
  forall acc count x,
  In x (map keyBase64 (fst (fst (cursor_loop prefix limit c acc count)))) ->
  In x (map keyBase64 acc) \/ In x (map fst c).
Proof.
  induction c as [|[k n] c IH]; intros acc count x H; simpl in *; [now left|].
  destruct (negb (String.eqb prefix "") && negb (has_prefix k prefix)).
  - destruct (IH _ _ _ H) as [H1|H1]; [now left|now right; right].
  - destruct (limit <=? count); simpl in H; [now left|].
    destruct (IH _ _ _ H) as [H1|H1]; [|now right; right].
    rewrite map_app, in_app_iff in H1. simpl in H1.
    destruct H1 as [H1|[H1|[]]]; [now left|now right; left].
Qed.

Lemma c_seek_keys (k : string) (b : bucket) x :
  In x (map fst (c_seek k b)) -> In x (map fst b).
Proof.
  induction b as [|[k' n'] b IH]; simpl; [tauto|].
  destruct (String.ltb k' k); simpl; [intro H; right; auto|tauto].
Qed.

Lemma start_cursor_keys (b : bucket) (afterKey : string) x :
  In x (map fst (start_cursor b afterKey)) -> In x (map fst b).
Proof.
  unfold start_cursor. destruct (String.eqb afterKey ""); [exact id|].
  intro H. apply (c_seek_keys afterKey).
  destruct (c_seek afterKey b) as [|[k n] c]; [exact H|right; exact H].
Qed.

Lemma lsk_bucket_keys (b : bucket) (prefix : string) (limit : Z)
    (afterKey : string) x :
  In x (map keyBase64 (items (lsk_bucket b prefix limit afterKey))) ->
  In x (map fst b).
Proof.
  unfold lsk_bucket.
  destruct (cursor_loop prefix limit (start_cursor b afterKey) [] 0)
    as [[its cnt] nak] eqn:E.
  simpl. intro H.
  pose proof (cursor_loop_keys prefix limit (start_cursor b afterKey) [] 0 x)
    as Hk.
  rewrite E in Hk. destruct (Hk H) as [[]|H1].
  exact (start_cursor_keys _ _ _ H1).
Qed.

Lemma remove_key_notin (key : string) (b : bucket) :
  NoDup (map fst b) -> ~ In key (map fst (remove_key key b)).
Proof.
  induction b as [|[k' n'] b IH]; simpl; intros Hnd; [tauto|].
  inversion Hnd as [|? ? Hnin Hnd']; subst.
  destruct (String.eqb_spec k' key) as [->|Hne]; [exact Hnin|].
  simpl. intros [E|H]; [congruence|exact (IH Hnd' H)].
Qed.

Lemma lookup_none_notin (key : string) (b : bucket) :
  lookup_key key b = None -> ~ In key (map fst b).
Proof.
  induction b as [|[k' n'] b IH]; simpl; [tauto|].
  destruct (String.eqb_spec k' key) as [->|Hne]; [discriminate|].
  intros H [E|Hin]; [congruence|exact (IH H Hin)].
Qed.

Lemma deleteKey_resolved (tx b b1 : bucket) (bucketPath key : string) :
  bucketPath <> "" -> key <> "" ->
  descend (Some tx) (split_slash bucketPath) = Some b ->
  bucket_delete key b = Ok b1 ->
  exists tx', deleteKey tx bucketPath key = Ok tx' /\
              descend (Some tx') (split_slash bucketPath) = Some b1.
Proof.
  intros Hp Hk Hd Hdel. unfold deleteKey.
  destruct (String.eqb_spec key "") as [E|_]; [contradiction|].
  destruct (String.eqb_spec bucketPath "") as [E|_]; [contradiction|].
  rewrite (BucketAtPath_descend _ _ (split_slash_nonempty _)), Hd.
  exact (modify_at_ok _ _ _ _ _ Hd Hdel).
Qed.

(** C7, counterexample: a key naming a nested container is not deleted
    ([ErrIncompatibleValue]) and the listing still returns it. *)
Lemma deleteKey_nested_container_cex :
  deleteKey nested_store "a" "b" = Fail ErrIncompatibleValue /\
  lsk (after nested_store (deleteKey nested_store "a" "b")) "a" "" 10 "" =
    Ok (mk_lsk_result [mk_item "b" 0 true; mk_item "d" 1 false] "" 2).
Proof. vm_compute. split; reflexivity. Qed.

(** ** Search *)

Section SearchBound.

Variable to_lower : string -> string.
Variable query : string.
Variable caseSensitive : bool.
Variable limit : Z.

Lemma probe_inv (k : string) (it : search_item) (st : search_state) :
  count st < limit -> search_inv limit st ->
  search_inv limit (probe to_lower query caseSensitive k it st).
Proof.
  intros Hlt [Hc [Hle Hp]]. unfold probe; simpl.
  assert (Hp' : Forall (fun c => c < limit) (probes st ++ [count st]))
    by (apply Forall_app; split; [exact Hp|constructor; [lia|constructor]]).
  destruct (contains (search_key to_lower caseSensitive k) query);
    unfold search_inv; simpl; (split; [|split; [lia|exact Hp']]).
  - rewrite length_app; simpl. lia.
  - exact Hc.
Qed.

Lemma searchInBucket_inv (n : node) :
  forall path st, search_inv limit st ->
  search_inv limit (searchInBucket to_lower query caseSensitive limit n path st).
Proof.
  induction n as [v|es Hes] using node_ind2; intros path st Hst; [exact Hst|].
  cbn [searchInBucket]. revert st Hst.
  induction es as [|[k c] es IH]; intros st Hst; [exact Hst|].
  inversion Hes as [|? ? Hc Hes']; subst. simpl in Hc.
  apply IH; [exact Hes'|].
  destruct (Z.leb_spec limit (count st)) as [_|Hlt]; [exact Hst|].
  pose proof (probe_inv k (bucket_item path k c) st Hlt Hst) as Hp.
  destruct (is_bucket c && (count _ <? limit))%bool; [apply Hc|]; exact Hp.
Qed.

Lemma search_root_inv (tx : bucket) :
  forall st, search_inv limit st ->
  search_inv limit (search_root to_lower query caseSensitive limit tx st).
Proof.
  induction tx as [|[name b] tx IH]; intros st Hst; simpl; [exact Hst|].
  apply IH.
  destruct (Z.leb_spec limit (count st)) as [_|Hlt]; [exact Hst|].
  pose proof (probe_inv name (mk_search_item [] name 0 true "bucket") st Hlt Hst)
    as Hp.
  destruct ((count _ <? limit) && is_bucket b)%bool;
    [apply searchInBucket_inv|]; exact Hp.
Qed.

End SearchBound.

(** C8, counterexample: with [limit = -1] the search returns no item yet
    reports [limited = true], and 0 items is more than [limit]. *)
Lemma search_negative_limit_cex :
  search to_lower_ascii two_roots "a" (-1) false =
    Ok (mk_search_result [] 0 true).
Proof. vm_compute. reflexivity. Qed.

(** C8 (amended).  An empty query is refused.  For a non-empty query and
    [limit >= 0], the search returns at most [limit] items, reports
    [total] as their number, tests no name once [limit] matches were
    collected (every test happened with the running count below [limit]),
    and [limited] holds exactly when the number of items equals [limit].
    For [limit < 0] it returns no item with [limited = true]. *)
Theorem search_limit_bounded :
  forall (to_lower : string -> string) (tx : bucket) (query : string)
         (limit : Z) (caseSensitive : bool),
    (query = "" ->
       search to_lower tx query limit caseSensitive =
         Fail (Errorf "missing required args: db and query")) /\
    (query <> "" -> 0 <= limit ->
       exists r st,
         search_run to_lower tx query limit caseSensitive = Ok (r, st) /\
         sItems r = found st /\
         total r = Z.of_nat (List.length (sItems r)) /\
         Z.of_nat (List.length (sItems r)) <= limit /\
         Forall (fun c => c < limit) (probes st) /\
         limited r = (Z.of_nat (List.length (sItems r)) =? limit)) /\
    (query <> "" -> limit < 0 ->
       search to_lower tx query limit caseSensitive =
         Ok (mk_search_result [] 0 true)).
Proof.
  intros to_lower tx query limit cs. split; [|split].
  - intros ->. reflexivity.
  - intros Hq Hl. unfold search_run.
    destruct (String.eqb_spec query "") as [E|_]; [contradiction|].
    set (q := if cs then query else to_lower query).
    unfold searchRecursive. simpl (count empty_search_state).
    destruct (Z.leb_spec limit 0) as [Hz|Hz].
    + assert (limit = 0) by lia. subst limit.
      do 2 eexists; split; [reflexivity|]. simpl.
      repeat split; try reflexivity; constructor.
    + pose proof (search_root_inv to_lower q cs limit tx empty_search_state
                    ltac:(unfold search_inv; simpl; repeat split; [lia|constructor]))
        as [Hc [Hle Hp]].
      set (st := search_root to_lower q cs limit tx empty_search_state) in *.
      do 2 eexists; split; [reflexivity|]. simpl.
      split; [reflexivity|]. split; [reflexivity|].
      rewrite <- Hc. split; [exact Hle|]. split; [exact Hp|].
      destruct (Z.leb_spec limit (count st)); destruct (Z.eqb_spec (count st) limit);
        try reflexivity; lia.
  - intros Hq Hl. unfold search, search_run.
    destruct (String.eqb_spec query "") as [E|_]; [contradiction|].
    unfold searchRecursive. simpl (count empty_search_state).
    destruct (Z.leb_spec limit 0); [|lia]. simpl.
    destruct (Z.leb_spec limit 0); [reflexivity|lia].
Qed.

Lemma search_limit_bounded_witness :
  ("al" <> "" /\ 0 <= 1) /\
  search to_lower_ascii
    [("m", Bkt [("ALPHABET", Val "x"); ("Alpha", Val "yy"); ("beta", Val "z")])]
    "al" 1 false =
  Ok (mk_search_result
        [mk_search_item ["m"] "ALPHABET" 1 false "key"] 1 true).
Proof.
  split; [split; [discriminate|lia]|].
  destruct (search_limit_bounded to_lower_ascii
              [("m", Bkt [("ALPHABET", Val "x"); ("Alpha", Val "yy"); ("beta", Val "z")])]
              "al" 1 false) as [_ [H _]].
  destruct (H ltac:(discriminate) ltac:(lia)) as [r [st [Hr _]]].
  unfold search. rewrite Hr. vm_compute in Hr. injection Hr as <- _.
  reflexivity.
Defined.

(** ** Export *)

Lemma export_loop_direct (path : list string) (prefix : string) (c : cursor) :
  export_loop path prefix c =
  map (fun kn => mk_row path (fst kn) (row_value (snd kn)))
      (filter (fun kn => String.eqb prefix "" || has_prefix (fst kn) prefix) c).
Proof.
  induction c as [|[k n] c IH]; simpl; [reflexivity|].
  destruct (String.eqb prefix ""), (has_prefix k prefix); simpl; rewrite IH;
    reflexivity.
Qed.

(** C9, counterexample: exporting "a" streams a record for its nested
    container "b" (with an empty value) and for "d", but none for the
    entry "c" inside "b". *)
Lemma export_nested_not_visited :
  export nested_store "a" "out.jsonl" "" =
    Ok [mk_row ["a"] "b" ""; mk_row ["a"] "d" "v"] /\
  descend (Some nested_store) ["a"; "b"] = Some [("c", Val "x")].
Proof. vm_compute. split; reflexivity. Qed.

(** C9 (amended).  For a path resolving to a container (the empty path
    being the root), export streams, in the container's key order, one
    record [{path, key, value}] for each direct entry whose key matches the
    prefix, a nested container giving a record with an empty value; the
    entries inside nested containers are not visited. *)
Theorem export_direct_entries :
  forall (tx b : bucket) (bucketPath out prefix : string),
    out <> "" ->
    descend (Some tx) (path_of bucketPath) = Some b ->
    export tx bucketPath out prefix =
      Ok (map (fun kn => mk_row (path_of bucketPath) (fst kn) (row_value (snd kn)))
              (filter (fun kn => String.eqb prefix "" || has_prefix (fst kn) prefix)
                      b)).
Proof.
  intros tx b bucketPath out prefix Ho Hd. unfold export.
  destruct (String.eqb_spec out "") as [E|_]; [contradiction|].
  unfold export_view. rewrite <- export_loop_direct.
  destruct (path_of bucketPath) as [|s l].
  - simpl in Hd. injection Hd as <-. reflexivity.
  - cbn [BucketAtPath descend] in Hd |- *. rewrite Hd. reflexivity.
Qed.

Lemma export_direct_entries_witness :
  export nested_store "a" "out.jsonl" "" =
    Ok [mk_row ["a"] "b" ""; mk_row ["a"] "d" "v"].
Proof.
  rewrite (export_direct_entries nested_store
             [("b", Bkt [("c", Val "x")]); ("d", Val "v")] "a" "out.jsonl" ""
             ltac:(discriminate) eq_refl).
  reflexivity.
Defined.

(** ** Guarding of the path resolver *)

Lemma modify_at_no_panic (path : list string) :
  forall (b : bucket) (f : bucket -> outcome bucket),
  (forall t, is_panic (f t) = false) -> is_panic (modify_at b path f) = false.
Proof.
  induction path as [|p ps IH]; intros b f Hf; simpl; [apply Hf|].
  destruct (lookup_key p b) as [[v|es]|]; try reflexivity.
  specialize (IH es f Hf).
  destruct (modify_at es ps f); [reflexivity|reflexivity|discriminate].
Qed.

Ltac no_panic_mutation :=
  intros; repeat match goal with
  | |- context [match ?x with Some _ => _ | None => _ end] => destruct x
  | |- context [match lookup_key ?k ?b with _ => _ end] => destruct (lookup_key k b) as [[?|?]|]
  | |- context [if ?c then _ else _] => destruct c
  end; reflexivity.

Lemma bucket_create_no_panic (name : string) (t : bucket) :
  is_panic (bucket_create name t) = false.
Proof. unfold bucket_create; no_panic_mutation. Qed.

Lemma bucket_delete_bucket_no_panic (name : string) (t : bucket) :
  is_panic (bucket_delete_bucket name t) = false.
Proof. unfold bucket_delete_bucket; no_panic_mutation. Qed.

Lemma bucket_put_no_panic (key value : string) (t : bucket) :
  is_panic (bucket_put key value t) = false.
Proof. unfold bucket_put; no_panic_mutation. Qed.

Lemma bucket_delete_no_panic (key : string) (t : bucket) :
  is_panic (bucket_delete key t) = false.
Proof. unfold bucket_delete; no_panic_mutation. Qed.

(** Resolving a non-empty path never panics. *)
Ltac resolve_nonempty :=
  match goal with
  | |- context [BucketAtPath ?tx (?s :: ?l)] =>
      cbn [BucketAtPath]; destruct (descend (bucket_of tx s) l); reflexivity
  end.

(** The depth-1 / depth-n branching of [createBucket] and
    [deleteBucket]. *)
Lemma parent_branch_no_panic (tx : bucket) (bucketPath : string)
    (g : string -> outcome bucket) (h : string -> bucket -> outcome bucket) :
  (forall name, is_panic (g name) = false) ->
  (forall name t, is_panic (h name t) = false) ->
  is_panic
    (match last_segment (split_slash bucketPath) with
     | Panic => Panic
     | Fail e => Fail e
     | Ok bucketName =>
         if Nat.eqb (List.length (split_slash bucketPath)) 1 then g bucketName
         else
           match BucketAtPath tx (removelast (split_slash bucketPath)) with
           | Panic => Panic
           | Fail e => Fail e
           | Ok None => Fail (Errorf "parent bucket not found")
           | Ok (Some _) =>
               modify_at tx (removelast (split_slash bucketPath)) (h bucketName)
           end
     end) = false.
Proof.
  intros Hg Hh. pose proof (split_slash_nonempty bucketPath) as Hne.
  unfold last_segment. rewrite (nth_error_last_index _ "" Hne).
  destruct (Nat.eqb_spec (List.length (split_slash bucketPath)) 1);
    [apply Hg|].
  assert (H2 : (2 <= List.length (split_slash bucketPath))%nat).
  { destruct (split_slash bucketPath); [congruence|simpl in *; lia]. }
  rewrite (BucketAtPath_descend _ _ (removelast_nonempty _ H2)).
  destruct (descend _ _); [apply modify_at_no_panic; apply Hh|reflexivity].
Qed.

(** C10.  [BucketAtPath] indexes [path[0]] and panics on the empty path;
    every caller branches on the empty path first (root branch, early
    error, or a [strings.Split] result, which is never empty), so no
    transaction of listing, value reads, export, bucket listing, search or
    the four mutations ever reaches that panic. *)
Theorem bucketAtPath_guarded :
  (forall tx, is_panic (BucketAtPath tx []) = true) /\
  (forall tx bucketPath prefix limit afterKey,
     is_panic (lsk tx bucketPath prefix limit afterKey) = false) /\
  (forall tx bucketPath key, is_panic (get_view tx (path_of bucketPath) key) = false) /\
  (forall tx bucketPath prefix,
     is_panic (export_view tx (path_of bucketPath) prefix) = false) /\
  (forall tx bucketPath, is_panic (CmdListBuckets tx (path_of bucketPath)) = false) /\
  (forall to_lower query caseSensitive limit tx path st,
     is_panic (searchRecursive to_lower query caseSensitive limit tx path st) = false) /\
  (forall tx bucketPath, is_panic (createBucket tx bucketPath) = false) /\
  (forall tx bucketPath key value,
     is_panic (putKeyValue tx bucketPath key value) = false) /\
  (forall tx bucketPath key, is_panic (deleteKey tx bucketPath key) = false) /\
  (forall tx bucketPath, is_panic (deleteBucket tx bucketPath) = false).
Proof.
  split; [reflexivity|].
  split; [intros; unfold lsk; destruct (path_of bucketPath);
          [reflexivity|resolve_nonempty]|].
  split; [intros; unfold get_view; destruct (path_of bucketPath);
          [reflexivity|resolve_nonempty]|].
  split; [intros; unfold export_view; destruct (path_of bucketPath);
          [reflexivity|resolve_nonempty]|].
  split; [intros; unfold CmdListBuckets; destruct (path_of bucketPath);
          [reflexivity|resolve_nonempty]|].
  split; [intros; unfold searchRecursive; destruct (limit <=? count st);
          [reflexivity|destruct path; [reflexivity|resolve_nonempty]]|].
  split.
  { intros; unfold createBucket. destruct (String.eqb bucketPath "");
      [reflexivity|].
    apply parent_branch_no_panic;
      intros; apply bucket_create_no_panic. }
  split.
  { intros; unfold putKeyValue.
    destruct (String.eqb key ""); [reflexivity|].
    destruct (String.eqb value ""); [reflexivity|].
    destruct (String.eqb bucketPath ""); [reflexivity|].
    rewrite (BucketAtPath_descend _ _ (split_slash_nonempty _)).
    destruct (descend _ _); [|reflexivity].
    apply modify_at_no_panic; apply bucket_put_no_panic. }
  split.
  { intros; unfold deleteKey.
    destruct (String.eqb key ""); [reflexivity|].
    destruct (String.eqb bucketPath ""); [reflexivity|].
    rewrite (BucketAtPath_descend _ _ (split_slash_nonempty _)).
    destruct (descend _ _); [|reflexivity].
    apply modify_at_no_panic; apply bucket_delete_no_panic. }
  intros; unfold deleteBucket. destruct (String.eqb bucketPath "");
    [reflexivity|].
  apply parent_branch_no_panic;
    intros; apply bucket_delete_bucket_no_panic.
Qed.

(** ** Extra: the store invariant *)

Lemma str_lt_trans (s1 s2 s3 : string) :
  String.compare s1 s2 = Lt -> String.compare s2 s3 = Lt ->
  String.compare s1 s3 = Lt.
Proof.
  revert s2 s3; induction s1 as [|a s1 IH]; intros [|b s2] [|c s3];
    simpl; try discriminate; try reflexivity.
  unfold Ascii.compare.
  destruct (N.compare_spec (N_of_ascii a) (N_of_ascii b)) as [Hab|Hab|Hab];
  destruct (N.compare_spec (N_of_ascii b) (N_of_ascii c)) as [Hbc|Hbc|Hbc];
    intros H1 H2; try discriminate.
  - rewrite Hab, Hbc, N.compare_refl. exact (IH _ _ H1 H2).
  - rewrite Hab. destruct (N.compare_spec (N_of_ascii b) (N_of_ascii c)); 
      [lia|reflexivity|lia].
  - rewrite <- Hbc. destruct (N.compare_spec (N_of_ascii a) (N_of_ascii b));
      [lia|reflexivity|lia].
  - destruct (N.compare_spec (N_of_ascii a) (N_of_ascii c)); [lia|reflexivity|lia].
Qed.

Lemma wf_Bkt (es : bucket) :
  wf_node (Bkt es) <->
  keys_sorted es /\ Forall (fun kc => wf_node (snd kc)) es.
Proof.
  simpl. split; intros [Hs Hw]; split; try exact Hs.
  - clear Hs. induction es as [|[k c] es IH]; constructor; simpl in *; tauto.
  - clear Hs. induction es as [|[k c] es IH]; [exact I|].
    inversion Hw; subst. split; [assumption|]. apply IH; assumption.
Qed.

Lemma in_insert_sorted (k : string) (n : node) (b : bucket) y :
  In y (insert_sorted k n b) -> y = (k, n) \/ In y b.
Proof.
  induction b as [|[k' n'] b IH]; simpl; [intuition|].
  destruct (String.compare k k'); simpl; intro H.
  - destruct H as [<-|H]; auto.
  - destruct H as [<-|[<-|H]]; auto.
  - destruct H as [<-|H]; auto. destruct (IH H); auto.
Qed.

Lemma in_remove_key (k : string) (b : bucket) y :
  In y (remove_key k b) -> In y b.
Proof.
  induction b as [|[k' n'] b IH]; simpl; [tauto|].
  destruct (String.eqb k' k); simpl; intuition.
Qed.

Lemma compare_gt_lt (x y : string) :
  String.compare x y = Gt -> String.compare y x = Lt.
Proof. intro H. rewrite String.compare_antisym, H. reflexivity. Qed.

Lemma insert_sorted_sorted (k : string) (n : node) (b : bucket) :
  keys_sorted b -> keys_sorted (insert_sorted k n b).
Proof.
  unfold keys_sorted. induction b as [|[k' n'] b IH]; simpl; intro Hs.
  - repeat constructor.
  - inversion Hs as [|? ? Hs' Hf]; subst.
    destruct (String.compare k k') eqn:Hc.
    + apply String.compare_eq_iff in Hc; subst. constructor; [exact Hs'|].
      exact Hf.
    + constructor; [exact Hs|]. constructor; [exact Hc|].
      eapply Forall_impl; [|exact Hf]. intros [k2 n2] H2.
      exact (str_lt_trans _ _ _ Hc H2).
    + constructor; [exact (IH Hs')|].
      apply Forall_forall. intros y Hy.
      destruct (in_insert_sorted _ _ _ _ Hy) as [->|Hin].
      * exact (compare_gt_lt _ _ Hc).
      * exact (proj1 (Forall_forall _ _) Hf y Hin).
Qed.

Lemma remove_key_sorted (k : string) (b : bucket) :
  keys_sorted b -> keys_sorted (remove_key k b).
Proof.
  unfold keys_sorted. induction b as [|[k' n'] b IH]; simpl; intro Hs;
    [constructor|].
  inversion Hs as [|? ? Hs' Hf]; subst.
  destruct (String.eqb k' k); [exact Hs'|].
  constructor; [exact (IH Hs')|].
  apply Forall_forall. intros y Hy.
  exact (proj1 (Forall_forall _ _) Hf y (in_remove_key _ _ _ Hy)).
Qed.

Lemma insert_sorted_wf (k : string) (n : node) (b : bucket) :
  wf_node n -> wf_node (Bkt b) -> wf_node (Bkt (insert_sorted k n b)).
Proof.
  intros Hn Hb. apply wf_Bkt in Hb as [Hs Hf]. apply wf_Bkt.
  split; [exact (insert_sorted_sorted _ _ _ Hs)|].
  apply Forall_forall. intros y Hy.
  destruct (in_insert_sorted _ _ _ _ Hy) as [->|Hin]; [exact Hn|].
  exact (proj1 (Forall_forall _ _) Hf y Hin).
Qed.

Lemma remove_key_wf (k : string) (b : bucket) :
  wf_node (Bkt b) -> wf_node (Bkt (remove_key k b)).
Proof.
  intros Hb. apply wf_Bkt in Hb as [Hs Hf]. apply wf_Bkt.
  split; [exact (remove_key_sorted _ _ Hs)|].
  apply Forall_forall. intros y Hy.
  exact (proj1 (Forall_forall _ _) Hf y (in_remove_key _ _ _ Hy)).
Qed.

Lemma lookup_key_in (k : string) (b : bucket) (n : node) :
  lookup_key k b = Some n -> In (k, n) b.
Proof.
  induction b as [|[k' n'] b IH]; simpl; [discriminate|].
  destruct (String.eqb_spec k' k) as [->|_]; [intro H; injection H as ->; auto|].
  intro H; right; exact (IH H).
Qed.

Lemma lookup_key_wf (k : string) (b : bucket) (n : node) :
  wf_node (Bkt b) -> lookup_key k b = Some n -> wf_node n.
Proof.
  intros Hb Hl. apply wf_Bkt in Hb as [_ Hf].
  exact (proj1 (Forall_forall _ _) Hf (k, n) (lookup_key_in _ _ _ Hl)).
Qed.

Lemma modify_at_wf (path : list string) :
  forall (b b' : bucket) (f : bucket -> outcome bucket),
  (forall t t', wf_node (Bkt t) -> f t = Ok t' -> wf_node (Bkt t')) ->
  wf_node (Bkt b) -> modify_at b path f = Ok b' -> wf_node (Bkt b').
Proof.
  induction path as [|p ps IH]; intros b b' f Hf Hb; simpl; [apply Hf, Hb|].
  destruct (lookup_key p b) as [[v|es]|] eqn:Hl; try discriminate.
  destruct (modify_at es ps f) as [es'| |] eqn:Hm; try discriminate.
  intro H; injection H as <-.
  apply insert_sorted_wf; [|exact Hb].
  exact (IH es es' f Hf (lookup_key_wf _ _ _ Hb Hl) Hm).
Qed.

Ltac mutation_wf :=
  let t := fresh "t" in let t' := fresh "t'" in
  let Ht := fresh "Ht" in let H := fresh "H" in
  intros t t' Ht; unfold bucket_put, bucket_delete, bucket_create,
    bucket_delete_bucket;
  repeat match goal with
  | |- context [if ?c then _ else _] => destruct c
  | |- context [match lookup_key ?k ?b with _ => _ end] =>
      destruct (lookup_key k b) as [[?|?]|]
  end; intro H; try discriminate; injection H as <-;
  first [ apply insert_sorted_wf; [exact I || (apply wf_Bkt; split; constructor)|exact Ht]
        | apply remove_key_wf; exact Ht
        | exact Ht ].

(** The nested branch shape shared by [createBucket] and [deleteBucket]:
    a success came from the root-level mutation or from the mutation
    applied through the parent handle. *)
Lemma parent_branch_ok (tx tx' : bucket) (bucketPath : string)
    (h : string -> bucket -> outcome bucket) :
  match last_segment (split_slash bucketPath) with
  | Panic => Panic
  | Fail e => Fail e
  | Ok bucketName =>
      if Nat.eqb (List.length (split_slash bucketPath)) 1 then h bucketName tx
      else
        match BucketAtPath tx (removelast (split_slash bucketPath)) with
        | Panic => Panic
        | Fail e => Fail e
        | Ok None => Fail (Errorf "parent bucket not found")
        | Ok (Some _) =>
            modify_at tx (removelast (split_slash bucketPath)) (h bucketName)
        end
  end = Ok tx' ->
  exists name, h name tx = Ok tx' \/
               modify_at tx (removelast (split_slash bucketPath)) (h name) = Ok tx'.
Proof.
  destruct (last_segment _) as [name| |]; try discriminate.
  exists name. destruct (Nat.eqb _ 1); [now left|].
  destruct (BucketAtPath _ _) as [[?|]| |]; try discriminate. now right.
Qed.

(** X1: every write operation keeps every bucket of the store with unique keys
    in increasing byte order. *)
Theorem write_ops_preserve_wf :
  forall tx : bucket, wf_store tx ->
    (forall p tx', createBucket tx p = Ok tx' -> wf_store tx') /\
    (forall p k v tx', putKeyValue tx p k v = Ok tx' -> wf_store tx') /\
    (forall p k tx', deleteKey tx p k = Ok tx' -> wf_store tx') /\
    (forall p tx', deleteBucket tx p = Ok tx' -> wf_store tx').
Proof.
  intros tx Hwf. unfold wf_store in *.
  assert (Hc : forall name t t', wf_node (Bkt t) -> bucket_create name t = Ok t' ->
                 wf_node (Bkt t')) by (intro; mutation_wf).
  assert (Hdb : forall name t t', wf_node (Bkt t) ->
                  bucket_delete_bucket name t = Ok t' -> wf_node (Bkt t'))
    by (intro; mutation_wf).
  split; [|split; [|split]].
  - intros p tx'. unfold createBucket. destruct (String.eqb p ""); [discriminate|].
    intro H. destruct (parent_branch_ok _ _ _ _ H) as [name [H1|H1]].
    + exact (Hc _ _ _ Hwf H1).
    + exact (modify_at_wf _ _ _ _ (Hc name) Hwf H1).
  - intros p k v tx'. unfold putKeyValue.
    destruct (String.eqb k ""); [discriminate|].
    destruct (String.eqb v ""); [discriminate|].
    destruct (String.eqb p ""); [discriminate|].
    destruct (BucketAtPath _ _) as [[?|]| |]; try discriminate.
    apply modify_at_wf; [mutation_wf|exact Hwf].
  - intros p k tx'. unfold deleteKey.
    destruct (String.eqb k ""); [discriminate|].
    destruct (String.eqb p ""); [discriminate|].
    destruct (BucketAtPath _ _) as [[?|]| |]; try discriminate.
    apply modify_at_wf; [mutation_wf|exact Hwf].
  - intros p tx'. unfold deleteBucket. destruct (String.eqb p ""); [discriminate|].
    intro H. destruct (parent_branch_ok _ _ _ _ H) as [name [H1|H1]].
    + exact (Hdb _ _ _ Hwf H1).
    + exact (modify_at_wf _ _ _ _ (Hdb name) Hwf H1).
Qed.

(** ** Extra: effects of the mutations *)

Lemma lookup_insert_other (k k' : string) (n : node) (b : bucket) :
  k' <> k -> lookup_key k' (insert_sorted k n b) = lookup_key k' b.
Proof.
  intro Hne. induction b as [|[k1 n1] b IH]; simpl.
  - destruct (String.eqb_spec k k'); [congruence|reflexivity].
  - destruct (String.compare k k1) eqn:Hc; simpl.
    + apply String.compare_eq_iff in Hc; subst k1.
      destruct (String.eqb_spec k k'); [congruence|reflexivity].
    + destruct (String.eqb_spec k k'); [congruence|reflexivity].
    + destruct (String.eqb k1 k'); [reflexivity|exact IH].
Qed.

Lemma lookup_remove_other (k k' : string) (b : bucket) :
  k' <> k -> lookup_key k' (remove_key k b) = lookup_key k' b.
Proof.
  intro Hne. induction b as [|[k1 n1] b IH]; simpl; [reflexivity|].
  destruct (String.eqb_spec k1 k) as [->|_].
  - destruct (String.eqb_spec k k'); [congruence|reflexivity].
  - simpl. destruct (String.eqb k1 k'); [reflexivity|exact IH].
Qed.

Lemma sorted_lookup_head (k : string) (n : node) (b : bucket) :
  Forall (key_lt (k, n)) b -> lookup_key k b = None.
Proof.
  induction b as [|[k1 n1] b IH]; intro Hf; simpl; [reflexivity|].
  inversion Hf as [|? ? H1 Hf']; subst. unfold key_lt in H1; simpl in H1.
  destruct (String.eqb_spec k1 k) as [->|_];
    [rewrite compare_refl_eq in H1; discriminate|exact (IH Hf')].
Qed.

Lemma lookup_remove_same (k : string) (b : bucket) :
  keys_sorted b -> lookup_key k (remove_key k b) = None.
Proof.
  unfold keys_sorted. induction b as [|[k1 n1] b IH]; intro Hs; simpl;
    [reflexivity|].
  inversion Hs as [|? ? Hs' Hf]; subst.
  destruct (String.eqb_spec k1 k) as [->|Hne].
  - exact (sorted_lookup_head _ _ _ Hf).
  - simpl. destruct (String.eqb_spec k1 k); [congruence|exact (IH Hs')].
Qed.

Lemma descend_app (b : option bucket) (l1 l2 : list string) :
  descend b (l1 ++ l2) = descend (descend b l1) l2.
Proof.
  revert b; induction l1 as [|p ps IH]; intro b; simpl; [reflexivity|].
  destruct b as [bb|]; [apply IH|rewrite descend_None; reflexivity].
Qed.

Lemma descend_wf (path : list string) :
  forall b t, wf_node (Bkt b) -> descend (Some b) path = Some t -> wf_node (Bkt t).
Proof.
  induction path as [|p ps IH]; intros b t Hb Hd; simpl in Hd.
  - injection Hd as <-; exact Hb.
  - unfold bucket_of in Hd.
    destruct (lookup_key p b) as [[v|es]|] eqn:Hl;
      try (rewrite descend_None in Hd; discriminate).
    exact (IH es t (lookup_key_wf _ _ _ Hb Hl) Hd).
Qed.

(** A successful write through a handle resolved the path, the mutation
    succeeded there, and the path now leads to the mutated bucket. *)
Lemma modify_at_inv (path : list string) :
  forall (b b' : bucket) (f : bucket -> outcome bucket),
  modify_at b path f = Ok b' ->
  exists t t', descend (Some b) path = Some t /\ f t = Ok t' /\
               descend (Some b') path = Some t'.
Proof.
  induction path as [|p ps IH]; intros b b' f H; simpl in *.
  - exists b, b'. auto.
  - destruct (lookup_key p b) as [[v|es]|] eqn:Hl; try discriminate.
    destruct (modify_at es ps f) as [es'| |] eqn:Hm; try discriminate.
    injection H as <-.
    destruct (IH _ _ _ Hm) as [t [t' [H1 [H2 H3]]]].
    exists t, t'. unfold bucket_of. rewrite Hl, lookup_insert_same. auto.
Qed.

Lemma get_view_resolved (tx b : bucket) (bucketPath key : string) :
  bucketPath <> "" -> descend (Some tx) (split_slash bucketPath) = Some b ->
  get_view tx (path_of bucketPath) key = Ok (bucket_get b key).
Proof.
  intros Hp Hd. rewrite (path_of_nonempty _ Hp). unfold get_view.
  destruct (split_slash bucketPath) as [|s l] eqn:Hs;
    [exfalso; exact (split_slash_nonempty _ Hs)|].
  cbn [BucketAtPath descend] in Hd |- *. rewrite Hd. reflexivity.
Qed.

Lemma readHead_resolved (tx b : bucket) (bucketPath key : string) (n : Z) :
  bucketPath <> "" -> descend (Some tx) (split_slash bucketPath) = Some b ->
  readHead tx bucketPath key n =
    if String.eqb key "" then Fail (Errorf "missing required args")
    else match go_head (bucket_get b key) n with
         | Ok head => Ok (mk_head_result "head" (go_len (bucket_get b key)) head)
         | Panic => Panic
         | Fail e => Fail e
         end.
Proof.
  intros Hp Hd. unfold readHead. destruct (String.eqb key ""); [reflexivity|].
  rewrite (get_view_resolved _ _ _ _ Hp Hd). reflexivity.
Qed.

(** X2: [put(p, k, v)] changes no other key of the container: every
    [readHead] of another key of [p] answers as before. *)
Theorem put_preserves_other_keys :
  forall (tx tx' : bucket) (bucketPath key value key' : string) (n : Z),
    putKeyValue tx bucketPath key value = Ok tx' -> key' <> key ->
    readHead tx' bucketPath key' n = readHead tx bucketPath key' n.
Proof.
  intros tx tx' bucketPath key value key' n H Hne.
  destruct (putKeyValue_ok _ _ _ _ _ H) as [Hp [_ [_ [b [Hd Hd']]]]].
  rewrite (readHead_resolved _ _ _ _ _ Hp Hd'), (readHead_resolved _ _ _ _ _ Hp Hd).
  unfold bucket_get. rewrite (lookup_insert_other _ _ _ _ Hne). reflexivity.
Qed.

(** The bucket a successful [deleteKey] leaves at the path. *)
Lemma deleteKey_ok (tx tx' : bucket) (bucketPath key : string) :
  deleteKey tx bucketPath key = Ok tx' ->
  bucketPath <> "" /\ key <> "" /\
  exists b b', descend (Some tx) (split_slash bucketPath) = Some b /\
               bucket_delete key b = Ok b' /\
               descend (Some tx') (split_slash bucketPath) = Some b'.
Proof.
  unfold deleteKey.
  destruct (String.eqb_spec key "") as [_|Hk]; [discriminate|].
  destruct (String.eqb_spec bucketPath "") as [_|Hp]; [discriminate|].
  rewrite (BucketAtPath_descend _ _ (split_slash_nonempty bucketPath)).
  destruct (descend (Some tx) (split_slash bucketPath)) as [b|] eqn:Hd;
    [|discriminate].
  intro H. destruct (modify_at_inv _ _ _ _ H) as [t [t' [H1 [H2 H3]]]].
  rewrite Hd in H1; injection H1 as <-.
  repeat split; try assumption. exists b, t'. auto.
Qed.

(** X3: on a well-formed store, after [deleteKey(p, k)] succeeds,
    [readHead(p, k, n)] finds no value (totalSize 0, empty head) for every
    bound [n >= 0], and [readHead] of every other key of [p] is unchanged. *)
Theorem deleteKey_then_readHead :
  forall (tx tx' : bucket) (bucketPath key : string),
    wf_store tx -> deleteKey tx bucketPath key = Ok tx' ->
    (forall n, 0 <= n ->
       readHead tx' bucketPath key n = Ok (mk_head_result "head" 0 "")) /\
    (forall key' n, key' <> key ->
       readHead tx' bucketPath key' n = readHead tx bucketPath key' n).
Proof.
  intros tx tx' bucketPath key Hwf H.
  destruct (deleteKey_ok _ _ _ _ H) as [Hp [Hk [b [b' [Hd [Hdel Hd']]]]]].
  pose proof (proj1 (proj1 (wf_Bkt b) (descend_wf _ _ _ Hwf Hd))) as Hs.
  assert (Hb' : forall k', lookup_key k' b' =
                  if String.eqb k' key then None else lookup_key k' b).
  { intro k'. unfold bucket_delete in Hdel.
    destruct (lookup_key key b) as [[v|es]|] eqn:Hl; try discriminate;
      injection Hdel as <-;
      destruct (String.eqb_spec k' key) as [->|Hne];
      try apply lookup_remove_same; try apply lookup_remove_other; auto. }
  split.
  - intros n Hn. rewrite (readHead_resolved _ _ _ _ _ Hp Hd').
    destruct (String.eqb_spec key "") as [E|_]; [contradiction|].
    unfold bucket_get. rewrite Hb', String.eqb_refl. unfold go_head, go_len.
    destruct (Z.ltb_spec n 0); [lia|reflexivity].
  - intros key' n Hne.
    rewrite (readHead_resolved _ _ _ _ _ Hp Hd'), (readHead_resolved _ _ _ _ _ Hp Hd).
    unfold bucket_get. rewrite Hb'.
    destruct (String.eqb_spec key' key); [contradiction|reflexivity].
Qed.

(** X4: [put] refuses an empty key or value, a path that does not resolve,
    and a key naming a nested container, each with its own error. *)
Theorem putKeyValue_errors :
  forall (tx : bucket) (bucketPath key value : string),
    (key = "" -> putKeyValue tx bucketPath key value = Fail (Errorf "key required")) /\
    (key <> "" -> value = "" ->
       putKeyValue tx bucketPath key value = Fail (Errorf "value required")) /\
    (key <> "" -> value <> "" -> bucketPath <> "" ->
       descend (Some tx) (split_slash bucketPath) = None ->
       putKeyValue tx bucketPath key value = Fail (Errorf "bucket not found")) /\
    (forall b es, key <> "" -> value <> "" -> bucketPath <> "" ->
       Z.of_nat (String.length key) <= MaxKeySize ->
       Z.of_nat (String.length value) <= MaxValueSize ->
       descend (Some tx) (split_slash bucketPath) = Some b ->
       lookup_key key b = Some (Bkt es) ->
       putKeyValue tx bucketPath key value = Fail ErrIncompatibleValue).
Proof.
  intros tx bucketPath key value. unfold putKeyValue.
  split; [intros ->; reflexivity|]. split.
  { intros Hk ->. destruct (String.eqb_spec key ""); [contradiction|reflexivity]. }
  split.
  - intros Hk Hv Hp Hd.
    destruct (String.eqb_spec key ""); [contradiction|].
    destruct (String.eqb_spec value ""); [contradiction|].
    destruct (String.eqb_spec bucketPath ""); [contradiction|].
    rewrite (BucketAtPath_descend _ _ (split_slash_nonempty _)), Hd. reflexivity.
  - intros b es Hk Hv Hp Hkl Hvl Hd Hl.
    destruct (String.eqb_spec key ""); [contradiction|].
    destruct (String.eqb_spec value ""); [contradiction|].
    destruct (String.eqb_spec bucketPath ""); [contradiction|].
    rewrite (BucketAtPath_descend _ _ (split_slash_nonempty _)), Hd.
    apply (modify_at_fail _ _ _ _ _ Hd). unfold bucket_put.
    destruct (String.eqb_spec key ""); [contradiction|].
    destruct (Z.ltb_spec MaxKeySize (Z.of_nat (String.length key))); [lia|].
    destruct (Z.ltb_spec MaxValueSize (Z.of_nat (String.length value))); [lia|].
    rewrite Hl. reflexivity.
Qed.

(** The parent branch shared by [createBucket] and [deleteBucket], read
    off the parent bucket: a one-segment path has the root as parent. *)
Lemma parent_branch_eq (tx : bucket) (bucketPath : string)
    (h : string -> bucket -> outcome bucket) :
  match last_segment (split_slash bucketPath) with
  | Panic => Panic
  | Fail e => Fail e
  | Ok bucketName =>
      if Nat.eqb (List.length (split_slash bucketPath)) 1 then h bucketName tx
      else
        match BucketAtPath tx (removelast (split_slash bucketPath)) with
        | Panic => Panic
        | Fail e => Fail e
        | Ok None => Fail (Errorf "parent bucket not found")
        | Ok (Some _) =>
            modify_at tx (removelast (split_slash bucketPath)) (h bucketName)
        end
  end =
  match descend (Some tx) (removelast (split_slash bucketPath)) with
  | None => Fail (Errorf "parent bucket not found")
  | Some _ =>
      if Nat.eqb (List.length (split_slash bucketPath)) 1
      then h (last (split_slash bucketPath) "") tx
      else modify_at tx (removelast (split_slash bucketPath))
             (h (last (split_slash bucketPath) ""))
  end.
Proof.
  pose proof (split_slash_nonempty bucketPath) as Hne.
  unfold last_segment. rewrite (nth_error_last_index _ "" Hne).
  destruct (split_slash bucketPath) as [|x [|y l]]; [congruence|reflexivity|].
  cbn [List.length Nat.eqb].
  rewrite (BucketAtPath_descend _ _ (removelast_nonempty (x :: y :: l) ltac:(simpl; lia))).
  destruct (descend _ _); reflexivity.
Qed.

Lemma parent_branch_fail (tx pb : bucket) (bucketPath : string)
    (h : string -> bucket -> outcome bucket) (e : err) :
  descend (Some tx) (removelast (split_slash bucketPath)) = Some pb ->
  h (last (split_slash bucketPath) "") pb = Fail e ->
  match last_segment (split_slash bucketPath) with
  | Panic => Panic
  | Fail e => Fail e
  | Ok bucketName =>
      if Nat.eqb (List.length (split_slash bucketPath)) 1 then h bucketName tx
      else
        match BucketAtPath tx (removelast (split_slash bucketPath)) with
        | Panic => Panic
        | Fail e => Fail e
        | Ok None => Fail (Errorf "parent bucket not found")
        | Ok (Some _) =>
            modify_at tx (removelast (split_slash bucketPath)) (h bucketName)
        end
  end = Fail e.
Proof.
  intros Hd Hh. rewrite parent_branch_eq, Hd.
  destruct (split_slash bucketPath) as [|x [|y l]] eqn:Hs.
  - exfalso; exact (split_slash_nonempty _ Hs).
  - simpl in Hd |- *. injection Hd as <-. exact Hh.
  - cbn [List.length Nat.eqb]. exact (modify_at_fail _ _ _ _ _ Hd Hh).
Qed.

Lemma parent_branch_succ (tx tx' : bucket) (bucketPath : string)
    (h : string -> bucket -> outcome bucket) :
  match last_segment (split_slash bucketPath) with
  | Panic => Panic
  | Fail e => Fail e
  | Ok bucketName =>
      if Nat.eqb (List.length (split_slash bucketPath)) 1 then h bucketName tx
      else
        match BucketAtPath tx (removelast (split_slash bucketPath)) with
        | Panic => Panic
        | Fail e => Fail e
        | Ok None => Fail (Errorf "parent bucket not found")
        | Ok (Some _) =>
            modify_at tx (removelast (split_slash bucketPath)) (h bucketName)
        end
  end = Ok tx' ->
  exists pb pb',
    descend (Some tx) (removelast (split_slash bucketPath)) = Some pb /\
    h (last (split_slash bucketPath) "") pb = Ok pb' /\
    descend (Some tx') (removelast (split_slash bucketPath)) = Some pb'.
Proof.
  rewrite parent_branch_eq.
  destruct (descend (Some tx) (removelast (split_slash bucketPath))) as [pb|]
    eqn:Hd; [|discriminate].
  destruct (split_slash bucketPath) as [|x [|y l]] eqn:Hs.
  - exfalso; exact (split_slash_nonempty _ Hs).
  - simpl in Hd |- *. injection Hd as <-. intro H. exists tx, tx'. auto.
  - cbn [List.length Nat.eqb]. intro H.
    destruct (modify_at_inv _ _ _ _ H) as [t [t' [H1 [H2 H3]]]].
    rewrite Hd in H1. injection H1 as ->. exists t, t'. auto.
Qed.

Lemma parent_branch_exists (tx pb pb' : bucket) (bucketPath : string)
    (h : string -> bucket -> outcome bucket) :
  descend (Some tx) (removelast (split_slash bucketPath)) = Some pb ->
  h (last (split_slash bucketPath) "") pb = Ok pb' ->
  exists tx',   match last_segment (split_slash bucketPath) with
    | Panic => Panic
    | Fail e => Fail e
    | Ok bucketName =>
        if Nat.eqb (List.length (split_slash bucketPath)) 1 then h bucketName tx
        else
          match BucketAtPath tx (removelast (split_slash bucketPath)) with
          | Panic => Panic
          | Fail e => Fail e
          | Ok None => Fail (Errorf "parent bucket not found")
          | Ok (Some _) =>
              modify_at tx (removelast (split_slash bucketPath)) (h bucketName)
          end
    end = Ok tx'.
Proof.
  intros Hd Hh. rewrite parent_branch_eq, Hd.
  destruct (split_slash bucketPath) as [|x [|y l]] eqn:Hs.
  - exfalso; exact (split_slash_nonempty _ Hs).
  - simpl in Hd |- *. injection Hd as <-. eauto.
  - cbn [List.length Nat.eqb].
    destruct (modify_at_ok _ _ _ _ _ Hd Hh) as [b' [Hm _]]. eauto.
Qed.

Lemma split_parent_last (bucketPath : string) :
  split_slash bucketPath =
    removelast (split_slash bucketPath) ++ [last (split_slash bucketPath) ""].
Proof. apply app_removelast_last, split_slash_nonempty. Qed.

(** X5: [createBucket(p)] fails when the parent
    of [p] does not resolve, when the last segment of [p] is empty, or when
    the parent already holds that name, as a container (ErrBucketExists) or
    as a value (ErrIncompatibleValue). *)
Theorem createBucket_errors :
  forall (tx : bucket) (bucketPath : string),
    let path := split_slash bucketPath in
    let name := last path "" in
    bucketPath <> "" ->
    (descend (Some tx) (removelast path) = None ->
       createBucket tx bucketPath = Fail (Errorf "parent bucket not found")) /\
    (forall pb, descend (Some tx) (removelast path) = Some pb ->
       (name = "" -> createBucket tx bucketPath = Fail ErrBucketNameRequired) /\
       (forall es, name <> "" -> lookup_key name pb = Some (Bkt es) ->
          createBucket tx bucketPath = Fail ErrBucketExists) /\
       (forall v, name <> "" -> lookup_key name pb = Some (Val v) ->
          createBucket tx bucketPath = Fail ErrIncompatibleValue)).
Proof.
  intros tx bucketPath path name Hp; subst path name. unfold createBucket.
  destruct (String.eqb_spec bucketPath "") as [E|_]; [contradiction|].
  cbv zeta. split.
  - intro Hd. rewrite parent_branch_eq, Hd. reflexivity.
  - intros pb Hd. repeat split.
    + intro Hn. apply (parent_branch_fail _ _ _ _ _ Hd).
      unfold bucket_create. rewrite Hn. reflexivity.
    + intros es Hn Hl. apply (parent_branch_fail _ _ _ _ _ Hd).
      unfold bucket_create.
      destruct (String.eqb_spec (last (split_slash bucketPath) "") ""); [contradiction|]. rewrite Hl. reflexivity.
    + intros v Hn Hl. apply (parent_branch_fail _ _ _ _ _ Hd).
      unfold bucket_create.
      destruct (String.eqb_spec (last (split_slash bucketPath) "") ""); [contradiction|]. rewrite Hl. reflexivity.
Qed.

(** X6: [createBucket(p)] succeeds exactly when the parent of [p] resolves
    and does not hold the (non-empty) last segment; afterwards [p] resolves
    to an empty container and every other entry of the parent is as
    before. *)
Theorem createBucket_success :
  forall (tx : bucket) (bucketPath : string),
    let path := split_slash bucketPath in
    let name := last path "" in
    ((exists tx', createBucket tx bucketPath = Ok tx') <->
     bucketPath <> "" /\ name <> "" /\
     exists pb, descend (Some tx) (removelast path) = Some pb /\
                lookup_key name pb = None) /\
    (forall tx', createBucket tx bucketPath = Ok tx' ->
       descend (Some tx') path = Some [] /\
       exists pb pb', descend (Some tx) (removelast path) = Some pb /\
                      descend (Some tx') (removelast path) = Some pb' /\
                      forall k, k <> name -> lookup_key k pb' = lookup_key k pb).
Proof.
  intros tx bucketPath path name; subst path name.
  assert (Hsucc : forall tx', createBucket tx bucketPath = Ok tx' ->
            bucketPath <> "" /\ exists pb pb',
              descend (Some tx) (removelast (split_slash bucketPath)) = Some pb /\
              bucket_create (last (split_slash bucketPath) "") pb = Ok pb' /\
              descend (Some tx') (removelast (split_slash bucketPath)) = Some pb').
  { intros tx' H. unfold createBucket in H.
    destruct (String.eqb_spec bucketPath "") as [_|Hp]; [discriminate|].
    split; [exact Hp|]. exact (parent_branch_succ _ _ _ _ H). }
  split; [split|].
  - intros [tx' H]. destruct (Hsucc tx' H) as [Hp [pb [pb' [H1 [H2 H3]]]]].
    unfold bucket_create in H2.
    destruct (String.eqb_spec (last (split_slash bucketPath) "") "") as [_|Hn]; [discriminate|].
    destruct (lookup_key (last (split_slash bucketPath) "") pb) as [[v|es]|] eqn:Hl; try discriminate.
    split; [exact Hp|]. split; [exact Hn|]. exists pb; auto.
  - intros [Hp [Hn [pb [Hd Hl]]]]. unfold createBucket.
    destruct (String.eqb_spec bucketPath "") as [E|_]; [contradiction|].
    apply (parent_branch_exists _ _ (insert_sorted (last (split_slash bucketPath) "") (Bkt []) pb) _ _ Hd).
    unfold bucket_create.
    destruct (String.eqb_spec (last (split_slash bucketPath) "") ""); [contradiction|]. rewrite Hl. reflexivity.
  - intros tx' H. destruct (Hsucc tx' H) as [Hp [pb [pb' [H1 [H2 H3]]]]].
    unfold bucket_create in H2.
    destruct (String.eqb_spec (last (split_slash bucketPath) "") "") as [_|Hn]; [discriminate|].
    destruct (lookup_key (last (split_slash bucketPath) "") pb) as [[v|es]|] eqn:Hl; try discriminate.
    injection H2 as <-. split.
    + rewrite split_parent_last, descend_app.
      rewrite H3. simpl. unfold bucket_of. rewrite lookup_insert_same. reflexivity.
    + exists pb, (insert_sorted (last (split_slash bucketPath) "") (Bkt []) pb). repeat split; try assumption.
      intros k Hk. apply lookup_insert_other; exact Hk.
Qed.

(** X7: [deleteBucket(p)] fails when [p] is
    empty, when the parent of [p] does not resolve, when the parent does not
    hold the last segment (ErrBucketNotFound) or holds it as a value
    (ErrIncompatibleValue). *)
Theorem deleteBucket_errors :
  forall (tx : bucket) (bucketPath : string),
    let path := split_slash bucketPath in
    let name := last path "" in
    (bucketPath = "" -> deleteBucket tx bucketPath = Fail (Errorf "bucket path required")) /\
    (bucketPath <> "" -> descend (Some tx) (removelast path) = None ->
       deleteBucket tx bucketPath = Fail (Errorf "parent bucket not found")) /\
    (forall pb, bucketPath <> "" -> descend (Some tx) (removelast path) = Some pb ->
       (lookup_key name pb = None -> deleteBucket tx bucketPath = Fail ErrBucketNotFound) /\
       (forall v, lookup_key name pb = Some (Val v) ->
          deleteBucket tx bucketPath = Fail ErrIncompatibleValue)).
Proof.
  intros tx bucketPath path name; subst path name. unfold deleteBucket.
  split; [intros ->; reflexivity|].
  split; [|intro pb]; intros Hp;
    (destruct (String.eqb_spec bucketPath "") as [E|_]; [contradiction|]); cbv zeta.
  - intro Hd. rewrite parent_branch_eq, Hd. reflexivity.
  - intro Hd. split.
    + intro Hl. apply (parent_branch_fail _ _ _ _ _ Hd).
      unfold bucket_delete_bucket. rewrite Hl. reflexivity.
    + intros v Hl. apply (parent_branch_fail _ _ _ _ _ Hd).
      unfold bucket_delete_bucket. rewrite Hl. reflexivity.
Qed.

(** X8: on a well-formed store, [deleteBucket(p)] succeeds exactly when the
    parent of [p] holds the last segment as a container; afterwards no path
    through [p] resolves any more (the whole subtree is gone) and every
    other entry of the parent is as before. *)
Theorem deleteBucket_success :
  forall (tx : bucket) (bucketPath : string),
    let path := split_slash bucketPath in
    let name := last path "" in
    wf_store tx ->
    ((exists tx', deleteBucket tx bucketPath = Ok tx') <->
     bucketPath <> "" /\
     exists pb es, descend (Some tx) (removelast path) = Some pb /\
                   lookup_key name pb = Some (Bkt es)) /\
    (forall tx', deleteBucket tx bucketPath = Ok tx' ->
       (forall rest, descend (Some tx') (path ++ rest) = None) /\
       exists pb pb', descend (Some tx) (removelast path) = Some pb /\
                      descend (Some tx') (removelast path) = Some pb' /\
                      forall k, k <> name -> lookup_key k pb' = lookup_key k pb).
Proof.
  intros tx bucketPath path name Hwf; subst path name.
  assert (Hsucc : forall tx', deleteBucket tx bucketPath = Ok tx' ->
            bucketPath <> "" /\ exists pb pb',
              descend (Some tx) (removelast (split_slash bucketPath)) = Some pb /\
              bucket_delete_bucket (last (split_slash bucketPath) "") pb = Ok pb' /\
              descend (Some tx') (removelast (split_slash bucketPath)) = Some pb').
  { intros tx' H. unfold deleteBucket in H.
    destruct (String.eqb_spec bucketPath "") as [_|Hp]; [discriminate|].
    split; [exact Hp|]. exact (parent_branch_succ _ _ _ _ H). }
  split; [split|].
  - intros [tx' H]. destruct (Hsucc tx' H) as [Hp [pb [pb' [H1 [H2 H3]]]]].
    unfold bucket_delete_bucket in H2.
    destruct (lookup_key (last (split_slash bucketPath) "") pb) as [[v|es]|] eqn:Hl; try discriminate.
    split; [exact Hp|]. exists pb, es; auto.
  - intros [Hp [pb [es [Hd Hl]]]]. unfold deleteBucket.
    destruct (String.eqb_spec bucketPath "") as [E|_]; [contradiction|].
    apply (parent_branch_exists _ _ (remove_key (last (split_slash bucketPath) "") pb) _ _ Hd).
    unfold bucket_delete_bucket. rewrite Hl. reflexivity.
  - intros tx' H. destruct (Hsucc tx' H) as [Hp [pb [pb' [H1 [H2 H3]]]]].
    unfold bucket_delete_bucket in H2.
    destruct (lookup_key (last (split_slash bucketPath) "") pb) as [[v|es]|] eqn:Hl; try discriminate.
    injection H2 as <-. split.
    + intro rest. rewrite split_parent_last, <- app_assoc, descend_app.
      rewrite H3. simpl. unfold bucket_of.
      pose proof (proj1 (proj1 (wf_Bkt pb) (descend_wf _ _ _ Hwf H1))) as Hs.
      rewrite (lookup_remove_same _ _ Hs). apply descend_None.
    + exists pb, (remove_key (last (split_slash bucketPath) "") pb). repeat split; try assumption.
      intros k Hk. apply lookup_remove_other; exact Hk.
Qed.

(** ** Extra: listing pages *)

Lemma skip_cond (prefix k : string) :
  negb (String.eqb prefix "") && negb (has_prefix k prefix) =
  negb (prefix_ok prefix k).
Proof. unfold prefix_ok. destruct (String.eqb prefix ""), (has_prefix k prefix); reflexivity. Qed.

Lemma cursor_loop_eq (prefix : string) (limit : Z) (c : cursor) :
  forall acc count,
  cursor_loop prefix limit c acc count =
    (acc ++ map entry_item
              (firstn (Z.to_nat (limit - count))
                 (filter (fun e => prefix_ok prefix (fst e)) c)),
     count + Z.of_nat (List.length
              (firstn (Z.to_nat (limit - count))
                 (filter (fun e => prefix_ok prefix (fst e)) c))),
     key_at (filter (fun e => prefix_ok prefix (fst e)) c)
       (Z.to_nat (limit - count))).
Proof.
  induction c as [|[k n] c IH]; intros acc count.
  - simpl. rewrite firstn_nil, app_nil_r, Z.add_0_r.
    unfold key_at. destruct (Z.to_nat _); reflexivity.
  - cbn [cursor_loop filter fst]. rewrite skip_cond.
    destruct (prefix_ok prefix k); cbn [negb]; [|apply IH].
    (destruct (Z.leb_spec limit count) as [Hle|Hlt];
     [replace (Z.to_nat (limit - count)) with 0%nat by lia; simpl;
      rewrite app_nil_r, Z.add_0_r; reflexivity|]);
    replace (Z.to_nat (limit - count)) with (S (Z.to_nat (limit - (count + 1))))
      by lia;
    rewrite IH; cbn [firstn map List.length]; unfold key_at; cbn [nth_error];
    rewrite <- app_assoc; f_equal; f_equal; lia.
Qed.

Lemma root_loop_eq (prefix : string) (limit : Z) (l : list (string * Z)) :
  forall acc count,
  root_loop prefix limit l acc count =
    (acc ++ map root_item
              (firstn (Z.to_nat (limit - count))
                 (filter (fun e => prefix_ok prefix (fst e)) l)),
     count + Z.of_nat (List.length
              (firstn (Z.to_nat (limit - count))
                 (filter (fun e => prefix_ok prefix (fst e)) l)))).
Proof.
  induction l as [|[name size] l IH]; intros acc count.
  - simpl. rewrite firstn_nil, app_nil_r, Z.add_0_r. reflexivity.
  - cbn [root_loop filter fst].
    destruct (Z.leb_spec limit count) as [Hle|Hlt].
    + replace (Z.to_nat (limit - count)) with 0%nat by lia. simpl.
      rewrite app_nil_r, Z.add_0_r. reflexivity.
    + rewrite skip_cond.
      destruct (prefix_ok prefix name); cbn [negb]; [|apply IH].
      replace (Z.to_nat (limit - count)) with (S (Z.to_nat (limit - (count + 1))))
        by lia;
      rewrite IH; cbn [firstn map List.length];
      rewrite <- app_assoc; f_equal; lia.
Qed.

Lemma filter_prefix_empty {A} (l : list (string * A)) :
  filter (fun e => prefix_ok "" (fst e)) l = l.
Proof. induction l as [|e l IH]; simpl; [reflexivity|rewrite IH; reflexivity]. Qed.

Lemma lsk_page_eq :
  forall (tx b : bucket) (bucketPath prefix afterKey : string) (limit : Z),
    bucketPath <> "" -> descend (Some tx) (split_slash bucketPath) = Some b ->
    0 <= limit ->
    let m := filter (fun e => prefix_ok prefix (fst e)) (start_cursor b afterKey) in
    let page := firstn (Z.to_nat limit) m in
    lsk tx bucketPath prefix limit afterKey =
      Ok (mk_lsk_result (map entry_item page) (key_at m (Z.to_nat limit))
                        (Z.of_nat (List.length page))).
Proof.
  intros tx b bucketPath prefix afterKey limit Hp Hd Hl m page.
  unfold lsk. rewrite (path_of_nonempty _ Hp).
  destruct (split_slash bucketPath) as [|s0 l0] eqn:Hs;
    [exfalso; exact (split_slash_nonempty _ Hs)|].
  cbn [BucketAtPath descend] in Hd |- *. rewrite Hd. f_equal.
  unfold lsk_bucket. rewrite cursor_loop_eq, Z.sub_0_r. cbn [app].
  fold m page. rewrite Z.add_0_l. f_equal.
  unfold key_at. destruct (nth_error m (Z.to_nat limit)) as [e|] eqn:Hn.
  - assert (Hlen : List.length page = Z.to_nat limit).
    { unfold page. rewrite length_firstn.
      assert (Z.to_nat limit < List.length m)%nat
        by (apply nth_error_Some; rewrite Hn; discriminate). lia. }
    rewrite Hlen, Z2Nat.id, Z.eqb_refl by exact Hl. simpl.
    destruct (String.eqb_spec (fst e) "") as [->|_]; reflexivity.
  - rewrite andb_false_r. reflexivity.
Qed.

(** X9: for [limit >= 0], the page lsk returns for a container that the
    path resolves to holds the first [limit] entries, from the cursor's
    start position on, whose keys pass the prefix filter; [approxReturned]
    is their number, and [nextAfterKey] is the key of the next entry that
    passes the filter ("" when there is none). *)
Theorem lsk_container_page :
  forall (tx b : bucket) (bucketPath prefix afterKey : string) (limit : Z),
    bucketPath <> "" -> descend (Some tx) (split_slash bucketPath) = Some b ->
    0 <= limit ->
    let m := filter (fun e => prefix_ok prefix (fst e)) (start_cursor b afterKey) in
    let page := firstn (Z.to_nat limit) m in
    lsk tx bucketPath prefix limit afterKey =
      Ok (mk_lsk_result (map entry_item page) (key_at m (Z.to_nat limit))
                        (Z.of_nat (List.length page))).
Proof. intros; apply lsk_page_eq; assumption. Qed.

(** X10: at the root, lsk lists the top-level buckets from [startIdx] on
    that pass the prefix filter, at most [limit] of them, each with its
    number of entries as [valueSize]; [approxReturned] is their number.
    Without a prefix, [nextAfterKey] is the name of the first bucket not
    returned ("" when every remaining one was). *)
Theorem lsk_root_page :
  forall (tx : bucket) (prefix afterKey : string) (limit : Z),
    let all := all_buckets tx in
    let rest := skipn (start_index afterKey all) all in
    let page := firstn (Z.to_nat limit)
                  (filter (fun e => prefix_ok prefix (fst e)) rest) in
    exists r, lsk tx "" prefix limit afterKey = Ok r /\
      items r = map root_item page /\
      approxReturned r = Z.of_nat (List.length page) /\
      (prefix = "" -> nextAfterKey r = key_at rest (Z.to_nat limit)).
Proof.
  intros tx prefix afterKey limit all rest page.
  eexists; split; [reflexivity|]. unfold lsk_root. fold all.
  rewrite root_loop_eq, Z.sub_0_r. fold rest. fold page. cbn [app items approxReturned nextAfterKey].
  rewrite Z.add_0_l. split; [reflexivity|split; [reflexivity|]].
  intros ->. unfold page. rewrite filter_prefix_empty.
  set (s := start_index afterKey all). set (L := Z.to_nat limit).
  unfold rest. fold s. unfold key_at. rewrite nth_error_skipn, length_firstn, length_skipn.
  destruct (Nat.lt_ge_cases s (List.length all)) as [Hs|Hs].
  - destruct (Nat.lt_ge_cases L (List.length all - s)) as [HL|HL].
    + replace (Nat.min L (List.length all - s)) with L by lia.
      destruct (Z.ltb_spec (Z.of_nat s + Z.of_nat L) (Z.of_nat (List.length all))); [|lia].
      rewrite (nth_error_nth' _ (EmptyString, 0)) by lia.
      f_equal. f_equal. lia.
    + replace (Nat.min L (List.length all - s)) with (List.length all - s)%nat by lia.
      destruct (Z.ltb_spec (Z.of_nat s + Z.of_nat (List.length all - s))
                  (Z.of_nat (List.length all))); [lia|].
      rewrite (proj2 (nth_error_None _ _)) by lia. reflexivity.
  - replace (List.length all - s)%nat with 0%nat by lia. rewrite Nat.min_0_r.
    destruct (Z.ltb_spec (Z.of_nat s + Z.of_nat 0) (Z.of_nat (List.length all))); [lia|].
    rewrite (proj2 (nth_error_None _ _)) by lia. reflexivity.
Qed.

Lemma ltb_lt (a b : string) : String.ltb a b = true <-> String.compare a b = Lt.
Proof. unfold String.ltb. destruct (String.compare a b); split; congruence. Qed.

Lemma filter_all_true {A} (f : A -> bool) (l : list A) :
  Forall (fun x => f x = true) l -> filter f l = l.
Proof.
  induction 1 as [|x l Hx _ IH]; simpl; [reflexivity|rewrite Hx, IH; reflexivity].
Qed.

Lemma sorted_after_head {A} (k k' : string) (a : A) (l : list (string * A)) :
  Forall (fun y => String.compare (fst (k', a)) (fst y) = Lt) l ->
  String.compare k k' = Lt \/ k = k' ->
  Forall (fun e => String.ltb k (fst e) = true) l.
Proof.
  intros Hf Hk. apply Forall_forall. intros y Hy.
  apply ltb_lt. pose proof (proj1 (Forall_forall _ _) Hf y Hy) as H. simpl in H.
  destruct Hk as [Hk| ->]; [exact (str_lt_trans _ _ _ Hk H)|exact H].
Qed.

Lemma seek_present (k : string) (b : bucket) :
  keys_sorted b -> In k (map fst b) ->
  exists n, c_seek k b = (k, n) :: filter (fun e => String.ltb k (fst e)) b.
Proof.
  unfold keys_sorted. induction b as [|[k' n'] b IH]; intros Hs Hin; [destruct Hin|].
  inversion Hs as [|? ? Hs' Hf]; subst. cbn [c_seek filter fst].
  destruct (String.ltb k' k) eqn:Hlt.
  - apply ltb_lt in Hlt.
    assert (Hne : k' <> k) by (intros ->; rewrite compare_refl_eq in Hlt; discriminate).
    destruct Hin as [E|Hin]; [simpl in E; contradiction|].
    destruct (IH Hs' Hin) as [n Hn]. exists n. rewrite Hn.
    assert (Hkl : String.ltb k k' = false)
      by (unfold String.ltb; rewrite String.compare_antisym, Hlt; reflexivity).
    rewrite Hkl. reflexivity.
  - unfold String.ltb in Hlt.
    destruct (String.compare k' k) eqn:Hc; try discriminate.
    + apply String.compare_eq_iff in Hc; subst k'. exists n'.
      unfold String.ltb at 1. rewrite compare_refl_eq. f_equal. symmetry.
      apply filter_all_true.
      apply (sorted_after_head k k n' b Hf). right; reflexivity.
    + exfalso. apply compare_gt_lt in Hc.
      destruct Hin as [E|Hin]; [simpl in E; subst k; rewrite compare_refl_eq in Hc; discriminate|].
      apply in_map_iff in Hin as [[y ny] [Ey Hy]]. simpl in Ey; subst y.
      pose proof (proj1 (Forall_forall _ _) Hf _ Hy) as H. unfold key_lt in H; simpl in H.
      pose proof (str_lt_trans _ _ _ Hc H) as H'. rewrite compare_refl_eq in H'. discriminate.
Qed.

Lemma start_cursor_present (b : bucket) (afterKey : string) :
  keys_sorted b -> afterKey <> "" -> In afterKey (map fst b) ->
  start_cursor b afterKey = filter (fun e => String.ltb afterKey (fst e)) b.
Proof.
  intros Hs Hne Hin. unfold start_cursor.
  destruct (String.eqb_spec afterKey "") as [E|_]; [contradiction|].
  destruct (seek_present _ _ Hs Hin) as [n ->]. reflexivity.
Qed.

(** X11: on a well-formed store, when the resumption key [afterKey] is still
    a key of the container, lsk (for [limit >= 0]) resumes exactly after
    it: the page is the first [limit] entries greater than [afterKey] that
    pass the prefix filter, and [nextAfterKey] the next such key. *)
Theorem lsk_resume_present_key :
  forall (tx b : bucket) (bucketPath prefix afterKey : string) (limit : Z),
    wf_store tx -> bucketPath <> "" ->
    descend (Some tx) (split_slash bucketPath) = Some b ->
    afterKey <> "" -> In afterKey (map fst b) -> 0 <= limit ->
    let m := filter (fun e => prefix_ok prefix (fst e))
               (filter (fun e => String.ltb afterKey (fst e)) b) in
    let page := firstn (Z.to_nat limit) m in
    lsk tx bucketPath prefix limit afterKey =
      Ok (mk_lsk_result (map entry_item page) (key_at m (Z.to_nat limit))
                        (Z.of_nat (List.length page))).
Proof.
  intros tx b bucketPath prefix afterKey limit Hwf Hp Hd Ha Hin Hl m page.
  pose proof (proj1 (proj1 (wf_Bkt b) (descend_wf _ _ _ Hwf Hd))) as Hs.
  pose proof (lsk_page_eq tx b bucketPath prefix afterKey limit Hp Hd Hl) as H.
  cbv zeta in H. rewrite (start_cursor_present _ _ Hs Ha Hin) in H. exact H.
Qed.

Lemma in_all_buckets (tx : bucket) (x : string) (sz : Z) :
  In (x, sz) (all_buckets tx) -> exists n, In (x, n) tx.
Proof.
  induction tx as [|[name n] tx IH]; simpl; [tauto|].
  destruct n as [v|es]; simpl.
  - intro H. destruct (IH H) as [n' Hn']. eauto.
  - intros [E|H]; [injection E as -> _; eauto|destruct (IH H) as [n' Hn']; eauto].
Qed.

Lemma all_buckets_sorted (tx : bucket) :
  keys_sorted tx ->
  StronglySorted (fun x y : string * Z => String.compare (fst x) (fst y) = Lt)
    (all_buckets tx).
Proof.
  unfold keys_sorted. induction tx as [|[name n] tx IH]; intro Hs; simpl;
    [constructor|].
  inversion Hs as [|? ? Hs' Hf]; subst.
  destruct n as [v|es]; simpl; [exact (IH Hs')|].
  constructor; [exact (IH Hs')|].
  apply Forall_forall. intros [y sz] Hy. simpl.
  destruct (in_all_buckets _ _ _ Hy) as [ny Hny].
  exact (proj1 (Forall_forall _ _) Hf _ Hny).
Qed.

Lemma first_greater_skip (k : string) (l : list (string * Z)) :
  StronglySorted (fun x y : string * Z => String.compare (fst x) (fst y) = Lt) l ->
  (exists x, In x l /\ String.ltb k (fst x) = true) ->
  forall i, exists j, first_greater k l i = (i + j)%nat /\
    skipn j l = filter (fun e => String.ltb k (fst e)) l.
Proof.
  induction l as [|[name sz] l IH]; intros Hs Hex i;
    [destruct Hex as [x [[] _]]|].
  inversion Hs as [|? ? Hs' Hf]; subst. cbn [first_greater filter fst].
  destruct (String.ltb k name) eqn:Hk.
  - exists 0%nat. split; [lia|]. simpl. f_equal. symmetry.
    apply filter_all_true, (sorted_after_head k name sz l Hf).
    left; apply ltb_lt; exact Hk.
  - destruct Hex as [x [[E|Hx] Hkx]]; [subst x; simpl in Hkx; congruence|].
    destruct (IH Hs' (ex_intro _ x (conj Hx Hkx)) (S i)) as [j [H1 H2]].
    exists (S j). split; [lia|exact H2].
Qed.

(** X12: on a well-formed store, when some top-level bucket has a name
    greater than [afterKey], lsk at the root resumes after [afterKey]: it
    lists, up to [limit], the top-level buckets named above [afterKey]
    that pass the prefix filter. *)
Theorem lsk_root_resume_later :
  forall (tx : bucket) (prefix afterKey : string) (limit : Z),
    wf_store tx -> afterKey <> "" ->
    (exists name es, In (name, Bkt es) tx /\ String.compare afterKey name = Lt) ->
    exists r, lsk tx "" prefix limit afterKey = Ok r /\
      items r = map root_item
                  (firstn (Z.to_nat limit)
                     (filter (fun e => prefix_ok prefix (fst e))
                        (filter (fun e => String.ltb afterKey (fst e))
                           (all_buckets tx)))).
Proof.
  intros tx prefix afterKey limit Hwf Ha [name [es [Hin Hlt]]].
  eexists; split; [reflexivity|]. unfold lsk_root.
  pose proof (all_buckets_sorted _ (proj1 (proj1 (wf_Bkt tx) Hwf))) as Hs.
  assert (Hex : exists x, In x (all_buckets tx) /\ String.ltb afterKey (fst x) = true).
  { exists (name, Z.of_nat (List.length es)). split; [|apply ltb_lt; exact Hlt].
    clear -Hin. induction tx as [|[n' c] tx IH]; [destruct Hin|].
    destruct Hin as [E|H]; simpl.
    - injection E as -> ->. left; reflexivity.
    - apply in_or_app. right. exact (IH H). }
  destruct (first_greater_skip _ _ Hs Hex 0) as [j [Hj Hsk]].
  unfold start_index. destruct (String.eqb_spec afterKey "") as [E|_]; [contradiction|].
  rewrite Hj. simpl Nat.add. rewrite Hsk, root_loop_eq, Z.sub_0_r. reflexivity.
Qed.


(** ** Extra: the search walk *)

Lemma takes_seq (limit : Z) (g : search_state -> search_state)
    (L1 L2 : list search_item) (st s1 : search_state) :
  takes limit g L2 ->
  found s1 = found st ++ firstn (Z.to_nat (limit - count st)) L1 /\
  count s1 = count st + Z.of_nat (List.length (firstn (Z.to_nat (limit - count st)) L1)) ->
  found (g s1) = found st ++ firstn (Z.to_nat (limit - count st)) (L1 ++ L2) /\
  count (g s1) =
    count st + Z.of_nat (List.length (firstn (Z.to_nat (limit - count st)) (L1 ++ L2))).
Proof.
  intros Hg [F1 C1]. destruct (Hg s1) as [F2 C2].
  assert (Hr : Z.to_nat (limit - count s1) = (Z.to_nat (limit - count st) - List.length L1)%nat)
    by (rewrite C1, length_firstn; lia).
  rewrite F2, C2, Hr, F1, firstn_app, <- app_assoc, C1, length_app. split; [reflexivity|lia].
Qed.

Lemma takes_nil (limit : Z) (st : search_state) :
  found st = found st ++ firstn (Z.to_nat (limit - count st)) (@nil search_item) /\
  count st = count st + Z.of_nat (List.length (firstn (Z.to_nat (limit - count st)) (@nil search_item))).
Proof. rewrite firstn_nil, app_nil_r. simpl. split; [reflexivity|lia]. Qed.

Lemma searchInBucket_cons to_lower query caseSensitive limit k c es path st :
  searchInBucket to_lower query caseSensitive limit (Bkt ((k, c) :: es)) path st =
  searchInBucket to_lower query caseSensitive limit (Bkt es) path
    (if limit <=? count st then st
     else if is_bucket c &&
             (count (probe to_lower query caseSensitive k (bucket_item path k c) st)
                <? limit)
     then searchInBucket to_lower query caseSensitive limit c (path ++ [k])
            (probe to_lower query caseSensitive k (bucket_item path k c) st)
     else probe to_lower query caseSensitive k (bucket_item path k c) st).
Proof. reflexivity. Qed.

Lemma search_root_cons to_lower query caseSensitive limit name b tx st :
  search_root to_lower query caseSensitive limit ((name, b) :: tx) st =
  search_root to_lower query caseSensitive limit tx
    (if limit <=? count st then st
     else if (count (probe to_lower query caseSensitive name
                       (mk_search_item [] name 0 true "bucket") st) <? limit)
             && is_bucket b
     then searchInBucket to_lower query caseSensitive limit b [name]
            (probe to_lower query caseSensitive name
               (mk_search_item [] name 0 true "bucket") st)
     else probe to_lower query caseSensitive name
            (mk_search_item [] name 0 true "bucket") st).
Proof. reflexivity. Qed.

Section SearchWalk.

Variable to_lower : string -> string.
Variable query : string.
Variable caseSensitive : bool.
Variable limit : Z.

(** One entry of a walk: unless the budget is spent, the test of its name,
    then, when [g] holds and budget is left, the walk [sub] of its
    subtree. *)
Lemma entry_takes (k : string) (it : search_item) (st : search_state) (g : bool)
    (sub : search_state -> search_state) (S : list search_item) (b2 : bool) :
  takes limit sub S -> (g = false -> S = []) ->
  b2 = g && (count (probe to_lower query caseSensitive k it st) <? limit) ->
  let M := if contains (search_key to_lower caseSensitive k) query then [it] else [] in
  let st1 := if limit <=? count st then st
             else if b2 then sub (probe to_lower query caseSensitive k it st)
             else probe to_lower query caseSensitive k it st in
  found st1 = found st ++ firstn (Z.to_nat (limit - count st)) (M ++ S) /\
  count st1 = count st + Z.of_nat (List.length (firstn (Z.to_nat (limit - count st)) (M ++ S))).
Proof.
  intros Hsub Hg Hb2 M st1. unfold st1.
  assert (Pf : found (probe to_lower query caseSensitive k it st) = found st ++ M /\
               count (probe to_lower query caseSensitive k it st) =
                 count st + Z.of_nat (List.length M)).
  { unfold M, probe. destruct (contains _ _); simpl; split;
      [reflexivity|reflexivity|symmetry; apply app_nil_r|lia]. }
  destruct Pf as [Pf Pc].
  assert (HM : (List.length M <= 1)%nat) by (unfold M; destruct (contains _ _); simpl; lia).
  destruct (Z.leb_spec limit (count st)) as [Hle|Hlt].
  - replace (Z.to_nat (limit - count st)) with 0%nat by lia. simpl.
    rewrite app_nil_r. split; [reflexivity|lia].
  - rewrite firstn_app, (firstn_all2 (n := Z.to_nat (limit - count st)) M) by lia.
    subst b2. destruct g; cbn [andb].
    + destruct (Z.ltb_spec (count (probe to_lower query caseSensitive k it st)) limit)
        as [Hlt'|Hge'].
      * destruct (Hsub (probe to_lower query caseSensitive k it st)) as [H1 H2].
        rewrite H1, H2, Pf, Pc, <- app_assoc.
        replace (Z.to_nat (limit - (count st + Z.of_nat (List.length M))))
          with (Z.to_nat (limit - count st) - List.length M)%nat by lia.
        split; [reflexivity|rewrite length_app; lia].
      * replace (Z.to_nat (limit - count st) - List.length M)%nat with 0%nat by lia.
        simpl. rewrite !app_nil_r. split; [exact Pf|exact Pc].
    + rewrite (Hg eq_refl), firstn_nil, !app_nil_r. split; [exact Pf|exact Pc].
Qed.

Lemma searchInBucket_takes (n : node) :
  forall path,
  takes limit (searchInBucket to_lower query caseSensitive limit n path)
              (node_matches to_lower query caseSensitive n path).
Proof.
  induction n as [v|es Hes] using node_ind2; intros path st.
  - apply takes_nil.
  - induction es as [|[k c] es IH] in st, Hes |- *; [apply takes_nil|].
    inversion Hes as [|? ? Hc Hes']; subst. simpl in Hc.
    rewrite searchInBucket_cons.
    change (node_matches to_lower query caseSensitive (Bkt ((k, c) :: es)) path)
      with ((if contains (search_key to_lower caseSensitive k) query
             then [bucket_item path k c] else []) ++
            (if is_bucket c then node_matches to_lower query caseSensitive
                                   c (path ++ [k]) else []) ++
            node_matches to_lower query caseSensitive (Bkt es) path).
    rewrite app_assoc.
    apply takes_seq; [intro st'; exact (IH Hes' st')|].
    apply (entry_takes k (bucket_item path k c) st (is_bucket c)
             (searchInBucket to_lower query caseSensitive limit c (path ++ [k]))
             (if is_bucket c then node_matches to_lower query caseSensitive
                                    c (path ++ [k]) else []) _).
    + destruct c as [v|es0]; [intro s; simpl; apply takes_nil|apply Hc].
    + intro E. rewrite E. reflexivity.
    + reflexivity.
Qed.

Lemma search_root_takes (tx : bucket) :
  takes limit (search_root to_lower query caseSensitive limit tx)
              (root_matches to_lower query caseSensitive tx).
Proof.
  induction tx as [|[name b] tx IH]; intro st; [apply takes_nil|].
  rewrite search_root_cons.
  change (root_matches to_lower query caseSensitive ((name, b) :: tx))
    with (((if contains (search_key to_lower caseSensitive name) query
            then [mk_search_item [] name 0 true "bucket"] else []) ++
           (if is_bucket b then node_matches to_lower query caseSensitive b [name]
            else [])) ++ root_matches to_lower query caseSensitive tx).
  apply takes_seq; [exact IH|].
  apply (entry_takes name (mk_search_item [] name 0 true "bucket") st (is_bucket b)
           (searchInBucket to_lower query caseSensitive limit b [name])
           (if is_bucket b then node_matches to_lower query caseSensitive b [name]
            else []) _).
  - destruct b as [v|es0]; [intro s; simpl; apply takes_nil|apply searchInBucket_takes].
  - intro E. rewrite E. reflexivity.
  - apply andb_comm.
Qed.

End SearchWalk.

(** X13: for a non-empty query, search returns the first [limit] matches
    (none when [limit <= 0]) of a depth-first, pre-order walk of the whole
    store: a top-level bucket before its contents, the entries of a bucket
    in key order, each nested bucket's contents right after it.  A name
    matches when, case-folded unless [caseSensitive], it contains the
    case-folded query.  [total] is the number of items and [limited] holds
    when it reaches [limit]. *)
Theorem search_first_matches :
  forall (to_lower : string -> string) (tx : bucket) (query : string)
         (limit : Z) (caseSensitive : bool),
    query <> "" ->
    let q := if caseSensitive then query else to_lower query in
    let F := firstn (Z.to_nat limit) (root_matches to_lower q caseSensitive tx) in
    search to_lower tx query limit caseSensitive =
      Ok (mk_search_result F (Z.of_nat (List.length F))
                           (limit <=? Z.of_nat (List.length F))).
Proof.
  intros to_lower tx query limit cs Hq q F.
  unfold search, search_run. destruct (String.eqb_spec query "") as [E|_]; [contradiction|].
  fold q. unfold searchRecursive. cbn [count empty_search_state].
  destruct (Z.leb_spec limit 0) as [Hle|Hlt].
  - unfold F. replace (Z.to_nat limit) with 0%nat by lia. reflexivity.
  - destruct (search_root_takes to_lower q cs limit tx empty_search_state) as [H1 _].
    cbn [found count empty_search_state] in H1. rewrite Z.sub_0_r in H1.
    rewrite H1. reflexivity.
Qed.

(** ** Extra: missing containers and compositions of writes *)

(** X14: for a non-empty path that does not resolve, the read operations
    answer without an error: lsk with the empty page, readHead (non-empty
    key, [n >= 0]) with totalSize 0 and an empty head, export (an output
    file given) with no record; CmdListBuckets answers "bucket not found"
    and deleteKey fails with "bucket not found". *)
Theorem missing_container_answers :
  forall (tx : bucket) (bucketPath : string),
    bucketPath <> "" -> descend (Some tx) (split_slash bucketPath) = None ->
    (forall prefix limit afterKey,
       lsk tx bucketPath prefix limit afterKey = Ok empty_lsk_result) /\
    (forall key n, key <> "" -> 0 <= n ->
       readHead tx bucketPath key n = Ok (mk_head_result "head" 0 "")) /\
    (forall out prefix, out <> "" -> export tx bucketPath out prefix = Ok []) /\
    CmdListBuckets tx (split_slash bucketPath) = Ok None /\
    (forall key, key <> "" ->
       deleteKey tx bucketPath key = Fail (Errorf "bucket not found")).
Proof.
  intros tx bucketPath Hp Hd.
  pose proof (path_of_nonempty _ Hp) as Hpo.
  pose proof (BucketAtPath_descend tx _ (split_slash_nonempty bucketPath)) as Hb.
  rewrite Hd in Hb.
  assert (Hcons : exists s l, split_slash bucketPath = s :: l)
    by (destruct (split_slash bucketPath) as [|s l] eqn:E;
        [exfalso; exact (split_slash_nonempty _ E)|eauto]).
  destruct Hcons as [s0 [l0 Hs]].
  split; [|split; [|split; [|split]]].
  - intros. unfold lsk. rewrite Hpo, Hs. rewrite Hs in Hb. rewrite Hb. reflexivity.
  - intros key n Hk Hn. unfold readHead.
    destruct (String.eqb_spec key "") as [E|_]; [contradiction|].
    unfold get_view. rewrite Hpo, Hs. rewrite Hs in Hb. rewrite Hb.
    unfold go_head, go_len. destruct (Z.ltb_spec n 0); [lia|reflexivity].
  - intros out prefix Ho. unfold export.
    destruct (String.eqb_spec out "") as [E|_]; [contradiction|].
    unfold export_view. rewrite Hpo, Hs. rewrite Hs in Hb. rewrite Hb. reflexivity.
  - unfold CmdListBuckets. rewrite Hs. rewrite Hs in Hb. rewrite Hb. reflexivity.
  - intros key Hk. unfold deleteKey.
    destruct (String.eqb_spec key "") as [E|_]; [contradiction|].
    destruct (String.eqb_spec bucketPath "") as [E|_]; [contradiction|].
    rewrite Hb. reflexivity.
Qed.

(** X15: in a container the path resolves to, readHead of a non-empty key
    that is absent or names a nested bucket answers, for every [n >= 0],
    with totalSize 0 and an empty head, not with an error. *)
Theorem readHead_no_value :
  forall (tx b : bucket) (bucketPath key : string) (n : Z),
    bucketPath <> "" -> descend (Some tx) (split_slash bucketPath) = Some b ->
    key <> "" -> 0 <= n ->
    (lookup_key key b = None \/ exists es, lookup_key key b = Some (Bkt es)) ->
    readHead tx bucketPath key n = Ok (mk_head_result "head" 0 "").
Proof.
  intros tx b bucketPath key n Hp Hd Hk Hn Hl.
  rewrite (readHead_resolved _ _ _ _ _ Hp Hd).
  destruct (String.eqb_spec key "") as [E|_]; [contradiction|].
  assert (Hg : bucket_get b key = None).
  { unfold bucket_get. destruct Hl as [-> | [es ->]]; reflexivity. }
  rewrite Hg. unfold go_head, go_len. destruct (Z.ltb_spec n 0); [lia|reflexivity].
Qed.

Lemma insert_sorted_twice (k : string) (x y : node) (b : bucket) :
  insert_sorted k x (insert_sorted k y b) = insert_sorted k x b.
Proof.
  induction b as [|[k1 n1] b IH]; simpl.
  - rewrite compare_refl_eq. reflexivity.
  - destruct (String.compare k k1) eqn:Hc; simpl;
      [rewrite compare_refl_eq; reflexivity|rewrite compare_refl_eq; reflexivity|].
    rewrite Hc, IH. reflexivity.
Qed.

Lemma insert_sorted_present (k : string) (n : node) (b : bucket) :
  keys_sorted b -> lookup_key k b = Some n -> insert_sorted k n b = b.
Proof.
  unfold keys_sorted. induction b as [|[k1 n1] b IH]; intros Hs Hl; [discriminate|].
  inversion Hs as [|? ? Hs' Hf]; subst. simpl in Hl |- *.
  destruct (String.eqb_spec k1 k) as [->|Hne].
  - injection Hl as ->. rewrite compare_refl_eq. reflexivity.
  - pose proof (lookup_key_in _ _ _ Hl) as Hin.
    pose proof (proj1 (Forall_forall _ _) Hf _ Hin) as Hlt. unfold key_lt in Hlt; simpl in Hlt.
    assert (Hgt : String.compare k k1 = Gt)
      by (rewrite String.compare_antisym, Hlt; reflexivity).
    rewrite Hgt, (IH Hs' Hl). reflexivity.
Qed.

Lemma remove_insert_same (k : string) (n : node) (b : bucket) :
  keys_sorted b -> remove_key k (insert_sorted k n b) = remove_key k b.
Proof.
  unfold keys_sorted. induction b as [|[k1 n1] b IH]; intro Hs; simpl.
  - rewrite String.eqb_refl. reflexivity.
  - inversion Hs as [|? ? Hs' Hf]; subst.
    destruct (String.compare k k1) eqn:Hc; simpl.
    + rewrite String.eqb_refl.
      apply String.compare_eq_iff in Hc; subst k1. rewrite String.eqb_refl. reflexivity.
    + rewrite String.eqb_refl. destruct (String.eqb_spec k1 k) as [->|_];
        [rewrite compare_refl_eq in Hc; discriminate|].
      f_equal. symmetry.
      assert (Hnone : lookup_key k b = None).
      { apply (sorted_lookup_head k n).
        apply Forall_forall. intros [y ny] Hy. unfold key_lt; simpl.
        pose proof (proj1 (Forall_forall _ _) Hf _ Hy) as H. unfold key_lt in H; simpl in H.
        exact (str_lt_trans _ _ _ Hc H). }
      clear -Hnone. induction b as [|[k2 n2] b IH]; simpl in *; [reflexivity|].
      destruct (String.eqb_spec k2 k) as [->|_]; [discriminate|rewrite IH by exact Hnone; reflexivity].
    + destruct (String.eqb_spec k1 k) as [->|_];
        [rewrite compare_refl_eq in Hc; discriminate|].
      rewrite (IH Hs'). reflexivity.
Qed.

Lemma remove_key_absent (k : string) (b : bucket) :
  lookup_key k b = None -> remove_key k b = b.
Proof.
  induction b as [|[k1 n1] b IH]; simpl; [reflexivity|].
  destruct (String.eqb_spec k1 k); [discriminate|intro H; rewrite (IH H); reflexivity].
Qed.

(** A second write through the same path only sees the bucket the first
    one left there. *)
Lemma modify_at_twice (path : list string) :
  forall (b b1 t : bucket) (f g : bucket -> outcome bucket),
  descend (Some b) path = Some t -> modify_at b path f = Ok b1 ->
  (forall t1, f t = Ok t1 -> g t1 = g t) ->
  modify_at b1 path g = modify_at b path g.
Proof.
  induction path as [|p ps IH]; intros b b1 t f g Hd Hm Hfg; simpl in *.
  - injection Hd as ->. exact (Hfg _ Hm).
  - unfold bucket_of in Hd.
    destruct (lookup_key p b) as [[v|es]|] eqn:Hl; try (rewrite descend_None in Hd; discriminate).
    destruct (modify_at es ps f) as [es1| |] eqn:Hm1; try discriminate.
    injection Hm as <-. rewrite lookup_insert_same.
    rewrite (IH es es1 t f g Hd Hm1 Hfg).
    destruct (modify_at es ps g); try reflexivity.
    rewrite insert_sorted_twice. reflexivity.
Qed.

Lemma modify_at_id (path : list string) :
  forall (b t : bucket) (f : bucket -> outcome bucket),
  wf_node (Bkt b) -> descend (Some b) path = Some t -> f t = Ok t ->
  modify_at b path f = Ok b.
Proof.
  induction path as [|p ps IH]; intros b t f Hwf Hd Hf; simpl in *.
  - injection Hd as ->. exact Hf.
  - unfold bucket_of in Hd.
    destruct (lookup_key p b) as [[v|es]|] eqn:Hl; try (rewrite descend_None in Hd; discriminate).
    rewrite (IH es t f (lookup_key_wf _ _ _ Hwf Hl) Hd Hf).
    rewrite (insert_sorted_present _ _ _ (proj1 (proj1 (wf_Bkt b) Hwf)) Hl). reflexivity.
Qed.

Lemma putKeyValue_shape (tx : bucket) (bucketPath key value : string) :
  key <> "" -> value <> "" -> bucketPath <> "" ->
  putKeyValue tx bucketPath key value =
    match descend (Some tx) (split_slash bucketPath) with
    | None => Fail (Errorf "bucket not found")
    | Some _ => modify_at tx (split_slash bucketPath) (bucket_put key value)
    end.
Proof.
  intros Hk Hv Hp. unfold putKeyValue.
  destruct (String.eqb_spec key ""); [contradiction|].
  destruct (String.eqb_spec value ""); [contradiction|].
  destruct (String.eqb_spec bucketPath ""); [contradiction|].
  rewrite (BucketAtPath_descend _ _ (split_slash_nonempty _)).
  destruct (descend _ _); reflexivity.
Qed.

(** X16: the last put to a key wins, the earlier one leaving no trace:
    after [put(p, k, v1)] succeeded, [put(p, k, v2)] gives the same
    result, store or error, as on the store before the first put. *)
Theorem put_put_last_wins :
  forall (tx tx1 : bucket) (bucketPath key v1 v2 : string),
    putKeyValue tx bucketPath key v1 = Ok tx1 ->
    putKeyValue tx1 bucketPath key v2 = putKeyValue tx bucketPath key v2.
Proof.
  intros tx tx1 bucketPath key v1 v2 H.
  destruct (putKeyValue_ok _ _ _ _ _ H) as [Hp [Hk [Hv [t [Hd Hd1]]]]].
  destruct (String.eqb_spec v2 "") as [->|Hv2];
    [unfold putKeyValue; destruct (String.eqb key ""); reflexivity|].
  rewrite (putKeyValue_shape _ _ _ _ Hk Hv2 Hp), (putKeyValue_shape _ _ _ _ Hk Hv2 Hp).
  rewrite Hd1, Hd.
  rewrite (putKeyValue_shape _ _ _ _ Hk Hv Hp), Hd in H.
  apply (modify_at_twice _ _ _ t (bucket_put key v1) _ Hd H).
  intros t1 Hf. unfold bucket_put in Hf |- *.
  destruct (String.eqb key ""); [discriminate|].
  destruct (MaxKeySize <? _); [discriminate|].
  destruct (MaxValueSize <? Z.of_nat (String.length v1)); [discriminate|].
  destruct (lookup_key key t) as [[w|es]|] eqn:Hl; try discriminate;
    injection Hf as <-;
    destruct (MaxValueSize <? Z.of_nat (String.length v2)); try reflexivity;
    rewrite lookup_insert_same, insert_sorted_twice; reflexivity.
Qed.

Lemma deleteKey_shape (tx : bucket) (bucketPath key : string) :
  key <> "" -> bucketPath <> "" ->
  deleteKey tx bucketPath key =
    match descend (Some tx) (split_slash bucketPath) with
    | None => Fail (Errorf "bucket not found")
    | Some _ => modify_at tx (split_slash bucketPath) (bucket_delete key)
    end.
Proof.
  intros Hk Hp. unfold deleteKey.
  destruct (String.eqb_spec key ""); [contradiction|].
  destruct (String.eqb_spec bucketPath ""); [contradiction|].
  rewrite (BucketAtPath_descend _ _ (split_slash_nonempty _)).
  destruct (descend _ _); reflexivity.
Qed.

(** X17: on a well-formed store, deleting a (non-empty) key absent from the
    container the path resolves to succeeds and leaves the store as it
    was; and a put of a key absent before, followed by deleteKey of that
    key, gives back the store as it was before the put. *)
Theorem put_then_delete_restores :
  forall (tx b : bucket) (bucketPath key : string),
    wf_store tx -> bucketPath <> "" -> key <> "" ->
    descend (Some tx) (split_slash bucketPath) = Some b ->
    lookup_key key b = None ->
    deleteKey tx bucketPath key = Ok tx /\
    (forall value tx1, putKeyValue tx bucketPath key value = Ok tx1 ->
       deleteKey tx1 bucketPath key = Ok tx).
Proof.
  intros tx b bucketPath key Hwf Hp Hk Hd Hl.
  assert (Hdel : deleteKey tx bucketPath key = Ok tx).
  { rewrite (deleteKey_shape _ _ _ Hk Hp), Hd.
    apply (modify_at_id _ _ b _ Hwf Hd).
    unfold bucket_delete. rewrite Hl. reflexivity. }
  split; [exact Hdel|].
  intros value tx1 H.
  destruct (putKeyValue_ok _ _ _ _ _ H) as [_ [_ [Hv [t [Hd' Hd1]]]]].
  rewrite Hd in Hd'. injection Hd' as <-.
  rewrite (putKeyValue_shape _ _ _ _ Hk Hv Hp), Hd in H.
  rewrite <- Hdel, (deleteKey_shape _ _ _ Hk Hp), (deleteKey_shape _ _ _ Hk Hp), Hd, Hd1.
  apply (modify_at_twice _ _ _ b (bucket_put key value) _ Hd H).
  intros t1 Hf. rewrite (bucket_put_ok _ _ _ _ Hf).
  pose proof (proj1 (proj1 (wf_Bkt b) (descend_wf _ _ _ Hwf Hd))) as Hs.
  unfold bucket_delete. rewrite lookup_insert_same, Hl, (remove_insert_same _ _ _ Hs),
    (remove_key_absent _ _ Hl). reflexivity.
Qed.

Lemma in_bucket_names (b : bucket) (k : string) (n : node) :
  In (k, n) b -> is_bucket n = true ->
  In k (flat_map (fun '(k, n) => if is_bucket n then [k] else []) b).
Proof.
  intros Hin Hb. apply in_flat_map. exists (k, n). split; [exact Hin|].
  rewrite Hb. left; reflexivity.
Qed.

(** X18: after [createBucket(p)] succeeds, listing the parent of [p] with
    CmdListBuckets (the root for a one-segment path) succeeds and names
    the new bucket. *)
Theorem createBucket_then_listBuckets :
  forall (tx tx' : bucket) (bucketPath : string),
    createBucket tx bucketPath = Ok tx' ->
    exists names,
      CmdListBuckets tx' (removelast (split_slash bucketPath)) = Ok (Some names) /\
      In (last (split_slash bucketPath) "") names.
Proof.
  intros tx tx' bucketPath H. unfold createBucket in H.
  destruct (String.eqb bucketPath ""); [discriminate|].
  destruct (parent_branch_succ _ _ _ _ H) as [pb [pb' [H1 [H2 H3]]]].
  unfold bucket_create in H2.
  destruct (String.eqb _ ""); [discriminate|].
  destruct (lookup_key _ pb) as [[v|es]|]; try discriminate. injection H2 as <-.
  set (name := last (split_slash bucketPath) "") in *.
  assert (Hin : In name (flat_map (fun '(k, n) => if is_bucket n then [k] else [])
                           (insert_sorted name (Bkt []) pb))).
  { apply (in_bucket_names _ _ (Bkt [])); [|reflexivity].
    apply lookup_key_in, lookup_insert_same. }
  unfold CmdListBuckets.
  destruct (removelast (split_slash bucketPath)) as [|s l] eqn:Hr.
  - simpl in H3. injection H3 as ->. eauto.
  - cbn [BucketAtPath descend]. cbn [descend] in H3. rewrite H3. eauto.
Qed.

(** ** Witnesses of the extra properties *)

Ltac wf_concrete := unfold wf_store; simpl; repeat (constructor || reflexivity).

Lemma write_ops_preserve_wf_witness :
  wf_store nested_store /\
  createBucket nested_store "a/b/e" =
    Ok [("a", Bkt [("b", Bkt [("c", Val "x"); ("e", Bkt [])]); ("d", Val "v")])] /\
  wf_store [("a", Bkt [("b", Bkt [("c", Val "x"); ("e", Bkt [])]); ("d", Val "v")])].
Proof.
  assert (Hwf : wf_store nested_store) by wf_concrete.
  assert (Hc : createBucket nested_store "a/b/e" =
    Ok [("a", Bkt [("b", Bkt [("c", Val "x"); ("e", Bkt [])]); ("d", Val "v")])])
    by (vm_compute; reflexivity).
  split; [exact Hwf|]. split; [exact Hc|].
  exact (proj1 (write_ops_preserve_wf nested_store Hwf) "a/b/e" _ Hc).
Defined.

Lemma put_preserves_other_keys_witness :
  putKeyValue pager_store "a" "y" "22" =
    Ok [("a", Bkt [("x", Val "1"); ("y", Val "22"); ("z", Val "3")])] /\
  readHead [("a", Bkt [("x", Val "1"); ("y", Val "22"); ("z", Val "3")])] "a" "x" 5 =
    readHead pager_store "a" "x" 5.
Proof.
  assert (H : putKeyValue pager_store "a" "y" "22" =
    Ok [("a", Bkt [("x", Val "1"); ("y", Val "22"); ("z", Val "3")])])
    by (vm_compute; reflexivity).
  split; [exact H|].
  exact (put_preserves_other_keys pager_store _ "a" "y" "22" "x" 5 H ltac:(discriminate)).
Defined.

Lemma deleteKey_then_readHead_witness :
  wf_store pager_store /\ deleteKey pager_store "a" "y" = Ok gap_store /\
  readHead gap_store "a" "y" 4 = Ok (mk_head_result "head" 0 "") /\
  readHead gap_store "a" "x" 4 = readHead pager_store "a" "x" 4.
Proof.
  assert (Hwf : wf_store pager_store) by wf_concrete.
  assert (H : deleteKey pager_store "a" "y" = Ok gap_store) by (vm_compute; reflexivity).
  destruct (deleteKey_then_readHead _ _ _ _ Hwf H) as [H1 H2].
  split; [exact Hwf|]. split; [exact H|]. split.
  - apply H1; lia.
  - apply H2; discriminate.
Defined.

Lemma putKeyValue_errors_witness :
  putKeyValue nested_store "a" "b" "v" = Fail ErrIncompatibleValue.
Proof.
  apply (proj2 (proj2 (proj2 (putKeyValue_errors nested_store "a" "b" "v")))
           [("b", Bkt [("c", Val "x")]); ("d", Val "v")] [("c", Val "x")]);
    try discriminate; try reflexivity; unfold MaxKeySize, MaxValueSize; simpl; lia.
Defined.

Lemma createBucket_errors_witness :
  createBucket nested_store "a/d" = Fail ErrIncompatibleValue.
Proof.
  apply (proj2 (proj2 (proj2 (createBucket_errors nested_store "a/d" ltac:(discriminate))
           [("b", Bkt [("c", Val "x")]); ("d", Val "v")] eq_refl)) "v");
    [discriminate|reflexivity].
Defined.

Lemma createBucket_success_witness :
  createBucket two_roots "a/x" = Ok [("a", Bkt [("x", Bkt [])]); ("b", Bkt [])] /\
  descend (Some [("a", Bkt [("x", Bkt [])]); ("b", Bkt [])]) (split_slash "a/x") =
    Some [].
Proof.
  assert (H : createBucket two_roots "a/x" =
              Ok [("a", Bkt [("x", Bkt [])]); ("b", Bkt [])]) by (vm_compute; reflexivity).
  split; [exact H|].
  exact (proj1 (proj2 (createBucket_success two_roots "a/x") _ H)).
Defined.

Lemma deleteBucket_errors_witness :
  deleteBucket nested_store "a/zz" = Fail ErrBucketNotFound.
Proof.
  apply (proj1 (proj2 (proj2 (deleteBucket_errors nested_store "a/zz"))
           [("b", Bkt [("c", Val "x")]); ("d", Val "v")] ltac:(discriminate) eq_refl)).
  reflexivity.
Defined.

Lemma deleteBucket_success_witness :
  wf_store nested_store /\
  deleteBucket nested_store "a/b" = Ok [("a", Bkt [("d", Val "v")])] /\
  descend (Some [("a", Bkt [("d", Val "v")])]) (split_slash "a/b" ++ ["c"]) = None.
Proof.
  assert (Hwf : wf_store nested_store) by wf_concrete.
  assert (H : deleteBucket nested_store "a/b" = Ok [("a", Bkt [("d", Val "v")])])
    by (vm_compute; reflexivity).
  split; [exact Hwf|]. split; [exact H|].
  exact (proj1 (proj2 (deleteBucket_success nested_store "a/b" Hwf) _ H) ["c"]).
Defined.

Lemma lsk_container_page_witness :
  lsk pager_store "a" "" 2 "" =
    Ok (mk_lsk_result [mk_item "x" 1 false; mk_item "y" 1 false] "z" 2).
Proof.
  pose proof (lsk_container_page pager_store
                [("x", Val "1"); ("y", Val "2"); ("z", Val "3")] "a" "" "" 2
                ltac:(discriminate) eq_refl ltac:(lia)) as H.
  cbv zeta in H. rewrite H. vm_compute. reflexivity.
Defined.

Lemma lsk_resume_present_key_witness :
  lsk pager_store "a" "" 1 "x" = Ok (mk_lsk_result [mk_item "y" 1 false] "z" 1).
Proof.
  assert (Hwf : wf_store pager_store) by wf_concrete.
  assert (Hin : In "x" (map fst [("x", Val "1"); ("y", Val "2"); ("z", Val "3")]))
    by (left; reflexivity).
  pose proof (lsk_resume_present_key pager_store
                [("x", Val "1"); ("y", Val "2"); ("z", Val "3")] "a" "" "x" 1
                Hwf ltac:(discriminate) eq_refl ltac:(discriminate) Hin ltac:(lia)) as H.
  cbv zeta in H. rewrite H. vm_compute. reflexivity.
Defined.

Lemma lsk_root_resume_later_witness :
  exists r, lsk [("a", Bkt []); ("b", Bkt [("k", Val "v")]); ("c", Bkt [])] "" "" 10 "a"
              = Ok r /\
            items r = [mk_item "b" 1 true; mk_item "c" 0 true].
Proof.
  assert (Hwf : wf_store [("a", Bkt []); ("b", Bkt [("k", Val "v")]); ("c", Bkt [])])
    by wf_concrete.
  assert (Hex : exists name es,
            In (name, Bkt es) [("a", Bkt []); ("b", Bkt [("k", Val "v")]); ("c", Bkt [])] /\
            String.compare "a" name = Lt).
  { exists "b", [("k", Val "v")]. split; [right; left; reflexivity|reflexivity]. }
  destruct (lsk_root_resume_later [("a", Bkt []); ("b", Bkt [("k", Val "v")]); ("c", Bkt [])]
              "" "a" 10 Hwf ltac:(discriminate) Hex) as [r [H1 H2]].
  exists r. split; [exact H1|]. rewrite H2. vm_compute. reflexivity.
Defined.

Lemma search_first_matches_witness :
  search to_lower_ascii nested_store "D" 5 false =
    Ok (mk_search_result [mk_search_item ["a"] "d" 1 false "key"] 1 false).
Proof.
  pose proof (search_first_matches to_lower_ascii nested_store "D" 5 false
                ltac:(discriminate)) as H.
  cbv zeta in H. rewrite H. vm_compute. reflexivity.
Defined.

Lemma missing_container_answers_witness :
  lsk two_roots "zz" "" 5 "" = Ok empty_lsk_result /\
  deleteKey two_roots "zz" "k" = Fail (Errorf "bucket not found").
Proof.
  destruct (missing_container_answers two_roots "zz" ltac:(discriminate) eq_refl)
    as [H1 [_ [_ [_ H5]]]].
  split; [apply H1|apply H5; discriminate].
Defined.

Lemma readHead_no_value_witness :
  readHead nested_store "a" "b" 3 = Ok (mk_head_result "head" 0 "").
Proof.
  apply (readHead_no_value nested_store [("b", Bkt [("c", Val "x")]); ("d", Val "v")]);
    try discriminate; try reflexivity; try lia.
  right. exists [("c", Val "x")]. reflexivity.
Defined.

Lemma put_put_last_wins_witness :
  putKeyValue pager_store "a" "x" "9" =
    Ok [("a", Bkt [("x", Val "9"); ("y", Val "2"); ("z", Val "3")])] /\
  putKeyValue [("a", Bkt [("x", Val "9"); ("y", Val "2"); ("z", Val "3")])] "a" "x" "10" =
    putKeyValue pager_store "a" "x" "10".
Proof.
  assert (H : putKeyValue pager_store "a" "x" "9" =
    Ok [("a", Bkt [("x", Val "9"); ("y", Val "2"); ("z", Val "3")])])
    by (vm_compute; reflexivity).
  split; [exact H|]. exact (put_put_last_wins _ _ _ _ _ "10" H).
Defined.

Lemma put_then_delete_restores_witness :
  putKeyValue two_roots "a" "k" "v" = Ok [("a", Bkt [("k", Val "v")]); ("b", Bkt [])] /\
  deleteKey [("a", Bkt [("k", Val "v")]); ("b", Bkt [])] "a" "k" = Ok two_roots.
Proof.
  assert (Hwf : wf_store two_roots) by wf_concrete.
  assert (H : putKeyValue two_roots "a" "k" "v" =
              Ok [("a", Bkt [("k", Val "v")]); ("b", Bkt [])]) by (vm_compute; reflexivity).
  split; [exact H|].
  exact (proj2 (put_then_delete_restores two_roots [] "a" "k" Hwf
                  ltac:(discriminate) ltac:(discriminate) eq_refl eq_refl) _ _ H).
Defined.

Lemma createBucket_then_listBuckets_witness :
  createBucket two_roots "a/x" = Ok [("a", Bkt [("x", Bkt [])]); ("b", Bkt [])] /\
  exists names,
    CmdListBuckets [("a", Bkt [("x", Bkt [])]); ("b", Bkt [])] ["a"] = Ok (Some names) /\
    In "x" names.
Proof.
  assert (H : createBucket two_roots "a/x" =
              Ok [("a", Bkt [("x", Bkt [])]); ("b", Bkt [])]) by (vm_compute; reflexivity).
  split; [exact H|]. exact (createBucket_then_listBuckets _ _ _ H).
Defined.

(** C7 (amended).  An empty key is rejected ("key required"), and so is
    the empty path with a non-empty key ("cannot delete key at root
    level").  For a non-empty path resolving to a container (keys unique,
    as bbolt keeps them) and a non-empty key: when the key does not name
    a nested container, [deleteEntry] succeeds (also when the key is
    absent), afterwards no listing of the path returns the key, and when
    the key was absent every listing of the path is unchanged; when the
    key names a nested container, [deleteEntry] fails with
    [ErrIncompatibleValue], the store is unchanged (so is every listing),
    and a listing of the whole container still returns the key. *)
Theorem deleteKey_then_list :
  forall (tx : bucket) (bucketPath key : string),
    (key = "" -> deleteKey tx bucketPath key = Fail (Errorf "key required")) /\
    (bucketPath = "" -> key <> "" ->
     deleteKey tx bucketPath key = Fail (Errorf "cannot delete key at root level")) /\
    (forall b : bucket,
       bucketPath <> "" -> key <> "" ->
       descend (Some tx) (split_slash bucketPath) = Some b ->
       NoDup (map fst b) ->
       ((forall es, lookup_key key b <> Some (Bkt es)) ->
        exists tx', deleteKey tx bucketPath key = Ok tx' /\
          (forall prefix limit afterKey r,
             lsk tx' bucketPath prefix limit afterKey = Ok r ->
             ~ In key (map keyBase64 (items r))) /\
          (lookup_key key b = None -> forall prefix limit afterKey,
             lsk tx' bucketPath prefix limit afterKey =
             lsk tx bucketPath prefix limit afterKey)) /\
       (forall es, lookup_key key b = Some (Bkt es) ->
        deleteKey tx bucketPath key = Fail ErrIncompatibleValue /\
        after tx (deleteKey tx bucketPath key) = tx /\
        exists r,
          lsk (after tx (deleteKey tx bucketPath key)) bucketPath ""
              (Z.of_nat (List.length b)) "" = Ok r /\
          In key (map keyBase64 (items r)))).
Proof.
  intros tx bucketPath key. split; [|split].
  - intros ->. reflexivity.
  - intros -> Hk. unfold deleteKey.
    destruct (String.eqb_spec key "") as [E|_]; [contradiction|reflexivity].
  - intros b Hp Hk Hd Hnd. split.
    + intros Hnb.
      destruct (lookup_key key b) as [[v|es]|] eqn:Hl.
      * assert (Hdel : bucket_delete key b = Ok (remove_key key b))
          by (unfold bucket_delete; rewrite Hl; reflexivity).
        destruct (deleteKey_resolved _ _ _ _ _ Hp Hk Hd Hdel) as [tx' [Hok Hd']].
        exists tx'; split; [exact Hok|split; [|discriminate]].
        intros prefix limit afterKey r Hr Hin.
        rewrite (lsk_resolved _ _ _ _ _ _ Hp Hd') in Hr. injection Hr as <-.
        exact (remove_key_notin key b Hnd (lsk_bucket_keys _ _ _ _ _ Hin)).
      * exfalso; exact (Hnb es eq_refl).
      * assert (Hdel : bucket_delete key b = Ok b)
          by (unfold bucket_delete; rewrite Hl; reflexivity).
        destruct (deleteKey_resolved _ _ _ _ _ Hp Hk Hd Hdel) as [tx' [Hok Hd']].
        exists tx'; split; [exact Hok|split].
        -- intros prefix limit afterKey r Hr Hin.
           rewrite (lsk_resolved _ _ _ _ _ _ Hp Hd') in Hr. injection Hr as <-.
           exact (lookup_none_notin key b Hl (lsk_bucket_keys _ _ _ _ _ Hin)).
        -- intros _ prefix limit afterKey.
           rewrite (lsk_resolved _ _ _ _ _ _ Hp Hd'), (lsk_resolved _ _ _ _ _ _ Hp Hd).
           reflexivity.
    + intros es Hl.
      assert (Hdel : bucket_delete key b = Fail ErrIncompatibleValue)
        by (unfold bucket_delete; rewrite Hl; reflexivity).
      assert (Hf : deleteKey tx bucketPath key = Fail ErrIncompatibleValue).
      { rewrite (deleteKey_shape _ _ _ Hk Hp), Hd.
        exact (modify_at_fail _ _ _ _ _ Hd Hdel). }
      rewrite Hf. split; [reflexivity|split; [reflexivity|]].
      cbn [after].
      rewrite (lsk_page_eq tx b bucketPath "" "" (Z.of_nat (List.length b))
                 Hp Hd (Nat2Z.is_nonneg _)).
      eexists; split; [reflexivity|]. cbn [items].
      unfold start_cursor, c_first. rewrite String.eqb_refl, filter_prefix_empty,
        Nat2Z.id, firstn_all, map_map.
      apply (in_map (fun e => keyBase64 (entry_item e)) b (key, Bkt es)).
      exact (lookup_key_in _ _ _ Hl).
Qed.

Lemma deleteKey_then_list_witness :
  deleteKey pager_store "a" "" = Fail (Errorf "key required") /\
  deleteKey pager_store "" "y" = Fail (Errorf "cannot delete key at root level") /\
  (exists tx', deleteKey pager_store "a" "y" = Ok tx' /\
    lsk tx' "a" "" 10 "" =
      Ok (mk_lsk_result [mk_item "x" 1 false; mk_item "z" 1 false] "" 2)) /\
  deleteKey nested_store "a" "b" = Fail ErrIncompatibleValue /\
  (exists r, lsk nested_store "a" "" 2 "" = Ok r /\ In "b"%string (map keyBase64 (items r))).
Proof.
  assert (Hp : "a"%string <> "") by discriminate.
  assert (Hy : "y"%string <> "") by discriminate.
  assert (Hb : "b"%string <> "") by discriminate.
  split; [exact (proj1 (deleteKey_then_list pager_store "a" "") eq_refl)|].
  split; [exact (proj1 (proj2 (deleteKey_then_list pager_store "" "y")) eq_refl Hy)|].
  assert (Hd : descend (Some pager_store) (split_slash "a") =
               Some [("x", Val "1"); ("y", Val "2"); ("z", Val "3")])
    by reflexivity.
  assert (Hnd : NoDup (map fst [("x", Val "1"); ("y", Val "2"); ("z", Val "3")])).
  { simpl. repeat constructor; simpl; intuition discriminate. }
  assert (Hnb : forall es, lookup_key "y" [("x", Val "1"); ("y", Val "2"); ("z", Val "3")]
                           <> Some (Bkt es)) by (intros es; discriminate).
  split.
  { destruct (proj1 (proj2 (proj2 (deleteKey_then_list pager_store "a" "y")) _ Hp Hy Hd Hnd)
                Hnb) as [tx' [Hok _]].
    exists tx'; split; [exact Hok|].
    vm_compute in Hok. injection Hok as <-. vm_compute. reflexivity. }
  assert (Hd2 : descend (Some nested_store) (split_slash "a") =
                Some [("b", Bkt [("c", Val "x")]); ("d", Val "v")]) by reflexivity.
  assert (Hnd2 : NoDup (map fst [("b", Bkt [("c", Val "x")]); ("d", Val "v")])).
  { simpl. repeat constructor; simpl; intuition discriminate. }
  destruct (proj2 (proj2 (proj2 (deleteKey_then_list nested_store "a" "b")) _ Hp Hb Hd2 Hnd2)
              [("c", Val "x")] eq_refl) as [Hf [Ha Hr]].
  split; [exact Hf|]. rewrite Ha in Hr. exact Hr.
Defined.
